(** * Aerospike info calls of the cluster reconciler (controllers/aero_info_calls.go)

    A shallow embedding of the quiesce decision, the cluster-stability
    poll, the topology snapshot, the heartbeat tip calls and the info-string
    parser, together with the properties claimed for them.

    Conventions
    - a Go [string] is a byte string: Rocq's [string] (a list of 8-bit
      [ascii]);
    - a Go [error] is its message; a nil error is [None];
    - a Go [(T, error)] return is a [result T];
    - calls that leave the process (info calls, the Kubernetes API,
      [time.Sleep]) are recorded in a trace of [Event]s and answered by the
      fields of a [World]; a nil-pointer dereference is the outcome
      [Panics];
    - logging ([r.Log.Info]) has no effect on any result and is left out,
      except in the module [Logged], which keeps the log lines of
      [waitForNodeSafeStopReady] as [LogInfo] events. *)

From Stdlib Require Import ZArith NArith Ascii.
From stdpp Require Import base tactics option list strings gmap fin_maps pretty.

Local Open Scope Z_scope.
Local Open Scope stdpp_scope.

(** ** Errors and results *)

Definition error := string.

Inductive result (A : Type) : Type :=
| Ok (a : A)
| Err (e : error).
Arguments Ok {A} a.
Arguments Err {A} e.

Definition isErr {A} (r : result A) : bool :=
  match r with Ok _ => false | Err _ => true end.

(** ** The [strings] package, as far as the parser uses it *)

Module strings.

(** [s[:n]] and [s[n:]] for [n <= len(s)]. *)
Fixpoint take (n : nat) (s : string) : string :=
  match n, s with
  | S n', String a s' => String a (take n' s')
  | _, _ => ""
  end.

Fixpoint drop (n : nat) (s : string) : string :=
  match n, s with
  | S n', String _ s' => drop n' s'
  | _, _ => s
  end.

Fixpoint HasPrefix (s prefix : string) {struct prefix} : bool :=
  match prefix, s with
  | "", _ => true
  | String a p', String b s' => if decide (a = b) then HasPrefix s' p' else false
  | String _ _, "" => false
  end.

(** [strings.Index]: the byte offset of the leftmost occurrence of
    [substr] in [s]; [None] is Go's [-1]. *)
Fixpoint Index (s substr : string) : option nat :=
  if HasPrefix s substr then Some 0%nat
  else match s with
       | "" => None
       | String _ s' => S <$> Index s' substr
       end.

(** [strings.Contains(s, substr)] is [Index(s, substr) >= 0]. *)
Definition Contains (s substr : string) : bool :=
  match Index s substr with Some _ => true | None => false end.

(** [unicode/utf8.DecodeRuneInString], reduced to what [explode] reads
    of it: whether the first rune decodes ([false] is [RuneError] for an
    invalid or short encoding) and its width in bytes. *)
Definition continuation (lo hi : N) (s : string) : bool :=
  match s with
  | String a _ => (lo <=? N_of_ascii a)%N && (N_of_ascii a <=? hi)%N
  | "" => false
  end.

Definition DecodeRuneInString (s : string) : bool * nat :=
  match s with
  | "" => (false, 0%nat)
  | String a s1 =>
    let s0 := N_of_ascii a in
    if (s0 <? 0x80)%N then (true, 1%nat)
    else if (s0 <? 0xC2)%N || (0xF4 <? s0)%N then (false, 1%nat)
    else
      let '(sz, lo, hi) :=
        if (s0 <? 0xE0)%N then (2%nat, 0x80, 0xBF)
        else if (s0 =? 0xE0)%N then (3%nat, 0xA0, 0xBF)
        else if (s0 =? 0xED)%N then (3%nat, 0x80, 0x9F)
        else if (s0 <? 0xF0)%N then (3%nat, 0x80, 0xBF)
        else if (s0 =? 0xF0)%N then (4%nat, 0x90, 0xBF)
        else if (s0 =? 0xF4)%N then (4%nat, 0x80, 0x8F)
        else (4%nat, 0x80, 0xBF) in
      if negb (continuation lo hi s1) then (false, 1%nat)
      else if (sz <=? 2)%nat then (true, 2%nat)
      else if negb (continuation 0x80 0xBF (drop 1 s1)) then (false, 1%nat)
      else if (sz <=? 3)%nat then (true, 3%nat)
      else if negb (continuation 0x80 0xBF (drop 2 s1)) then (false, 1%nat)
      else (true, 4%nat)
  end%N.

(** The bytes EF BF BD, the UTF-8 encoding of U+FFFD ([utf8.RuneError]). *)
Definition RuneErrorString : string :=
  String (ascii_of_N 0xEF) (String (ascii_of_N 0xBF) (String (ascii_of_N 0xBD) "")).

(** [explode(s, -1)]: one string per UTF-8 sequence.  The last piece is
    the unread rest of [s]; before it an undecodable byte is replaced by
    the encoding of U+FFFD, as the Go releases up to 1.19 do (later ones
    keep the byte; both agree on valid UTF-8).  [n] bounds the number of
    runes and is the length of [s] in [Split]. *)
Fixpoint explode (n : nat) (s : string) : list string :=
  match n with
  | O => []
  | S n' =>
    match s with
    | "" => []
    | _ =>
      let '(valid, size) := DecodeRuneInString s in
      match drop size s with
      | "" => [s]
      | rest => (if valid then take size s else RuneErrorString) :: explode n' rest
      end
    end
  end.

(** [genSplit(s, sep, 0, -1)] for a non-empty [sep]: cut at the leftmost
    occurrence, go on with what follows it.  [n] is the number of cuts
    still allowed, Go's [Count(s, sep)]; the length of [s] bounds it. *)
Fixpoint genSplit (n : nat) (s sep : string) : list string :=
  match n with
  | O => [s]
  | S n' =>
    match Index s sep with
    | None => [s]
    | Some m => take m s :: genSplit n' (drop (m + String.length sep) s) sep
    end
  end.

Definition Split (s sep : string) : list string :=
  if decide (sep = "") then explode (String.length s) s
  else genSplit (String.length s) s sep.

Fixpoint Join (elems : list string) (sep : string) : string :=
  match elems with
  | [] => ""
  | [x] => x
  | x :: rest => x +:+ sep +:+ Join rest sep
  end.

End strings.

(** ** ParseInfoIntoMap *)

(** The body of the [for _, item := range items] loop, on the map built so
    far.  [kv[0]] and [kv[1:]] are read only when [len(kv) >= 2]. *)
Fixpoint parseItems (items : list string) (sep : string) (m : gmap string string)
  : result (gmap string string) :=
  match items with
  | [] => Ok m
  | item :: items' =>
    if decide (item = "") then parseItems items' sep m
    else
      match strings.Split item sep with
      | kv0 :: ((_ :: _) as kv1) =>
        parseItems items' sep (<[kv0 := strings.Join kv1 sep]> m)
      | _ => Err ("error parsing info item " +:+ item)
      end
  end.

Definition ParseInfoIntoMap (str del sep : string) : result (gmap string string) :=
  let m : gmap string string := ∅ in
  if decide (str = "") then Ok m
  else parseItems (strings.Split str del) sep m.

(** ** ParseInfoIntoMap: what the parser computes *)

(** The cut of one item as the parser is described: the key is what stands
    before the first separator, the value is everything after it. *)
Definition cutFirst (item sep : string) : option (string * string) :=
  (λ i, (strings.take i item, strings.drop (i + String.length sep) item))
    <$> strings.Index item sep.

Definition keyOf (item sep : string) : option string := fst <$> cutFirst item sep.

(** One assignment [m[key] = value]; an item without separator assigns
    nothing (the parser has failed before). *)
Definition assign (sep : string) (m : gmap string string) (item : string)
  : gmap string string :=
  match cutFirst item sep with
  | Some (k, v) => <[k := v]> m
  | None => m
  end.

(** The error condition of the parser as it is claimed for every
    separator: an error exactly when some non-empty item has no occurrence
    of the separator. *)
Definition errorIffItemWithoutSeparator (str del sep : string) : Prop :=
  isErr (ParseInfoIntoMap str del sep) = true ↔
  ∃ item, item ∈ strings.Split str del ∧ item ≠ "" ∧ strings.Contains item sep = false.


(** ** Data of the reconciler *)

(** [corev1.Pod], the fields read here: [ObjectMeta.Name] and
    [Status.PodIP]. *)
Record Pod := { Name : string; PodIP : string }.

(** [deployment.ASConn] (without its logger) and [deployment.HostConn] as
    [deployment.NewHostConn(log, id, asConn, nil)] builds it. *)
Record ASConn := {
  AerospikeHostName : string;
  AerospikePort : Z;
  AerospikeTLSName : string
}.

Record HostConn := NewHostConn { ID : string; ASConnInfo : ASConn }.

(** Modelled from the spec: [reconcileResult] and its constructors
    [reconcileSuccess], [reconcileError] and [reconcileRequeueAfter] are
    declared in another file of the controller.  The spec gives the outcome
    as a tagged result, Success, Error(cause) or RequeueAfter(seconds), of
    which only Success lets a caller go on. *)
Inductive reconcileResult :=
| reconcileSuccess
| reconcileError (e : error)
| reconcileRequeueAfter (secs : Z).

Definition isSuccess (res : reconcileResult) : bool :=
  match res with reconcileSuccess => true | _ => false end.

(** Modelled from the spec: [utils.GetPod] is declared in another package
    of the repository; the call site looks a pod up by its name in the
    ignorable pods, nil when there is none. *)
Definition GetPod (podName : string) (pods : list Pod) : option Pod :=
  List.find (λ p, bool_decide (podName = Name p)) pods.

(** [time.Duration] counts nanoseconds. *)
Definition Second : Z := 1000000000.

(** ** Calls that leave the process *)

(** A value of a log line: a string or a list of strings. *)
Inductive LogValue :=
| LogString (s : string)
| LogStrings (l : list string).

Inductive Event :=
| Sleep (d : Z)
| CallGetNamespaces (hostConn : HostConn)
| CallIsNamespaceSCEnabled (hostConn : HostConn) (ns : string)
| CallIsNodeInRoster (hostConn : HostConn) (ns : string)
| CallWaitForAllSTSToBeReady
| CallGetClusterPodList
| CallIsClusterAndStable (allHostConns : list HostConn)
| CallInfoQuiesce (allHostConns : list HostConn) (selectedHostConn : HostConn) (ns : string)
| CallTipHostname (asConn : ASConn) (host : string) (port : Z)
| CallTipClearHostname (asConn : ASConn) (host : string) (port : Z)
| CallAlumniReset (asConn : ASConn)
| LogInfo (msg : string) (keysAndValues : list (string * LogValue)).

(** What the reconciler is configured with and what its collaborators
    answer.  The configuration getters of [asdbv1beta1] are given by their
    value on [r.aeroCluster.Spec.AerospikeConfig] (a nil [*int] is [None]);
    the answer of the stability poll may change from one attempt to the
    next, so it is indexed by the attempt. *)
Record World := {
  GetServiceTLSNameAndPort : string * option Z;
  GetServicePort : option Z;
  GetHeartbeatTLSNameAndPort : string * option Z;
  GetHeartbeatPort : option Z;
  getFQDNForPod : string → string;
  IsPodTerminating : Pod → bool;
  IsPodRunningAndReady : Pod → bool;
  getClusterPodList : result (list Pod);
  waitForAllSTSToBeReady : option error;
  getNamespaces : HostConn → result (list string);
  isNamespaceSCEnabled : HostConn → string → result bool;
  isNodeInRoster : HostConn → string → result bool;
  IsClusterAndStable : Z → list HostConn → result bool;
  InfoQuiesce : list HostConn → HostConn → string → option error;
  TipHostname : ASConn → string → Z → option error;
  TipClearHostname : ASConn → string → Z → option error;
  AlumniReset : ASConn → option error
}.

(** ** The monad of a reconciler run: an outcome and the calls made *)

Inductive Outcome (A : Type) : Type :=
| Returns (a : A)
| Panics.
Arguments Returns {A} a.
Arguments Panics {A}.

Definition Go (A : Type) : Type := Outcome A * list Event.

#[export] Instance Go_ret : MRet Go := λ A a, (Returns a, []).

#[export] Instance Go_bind : MBind Go := λ A B k m,
  match m with
  | (Returns a, t) => let '(o, t') := k a in (o, t ++ t')
  | (Panics, t) => (Panics, t)
  end.

Definition call {A} (ev : Event) (answer : A) : Go A := (Returns answer, [ev]).

(** [*p]: a nil pointer stops the run. *)
Definition deref {A} (p : option A) : Go A :=
  match p with
  | Some v => mret v
  | None => (Panics, [])
  end.

Definition outcome {A} (m : Go A) : Outcome A := m.1.
Definition trace {A} (m : Go A) : list Event := m.2.

(** How a loop is left: by a [return] of the enclosing function, or by
    running to its end (or a [break]) with the variables of the enclosing
    scope as they are then. *)
Inductive LoopExit (R V : Type) : Type :=
| Return (res : R)
| Fallthrough (vars : V).
Arguments Return {R V} res.
Arguments Fallthrough {R V} vars.

Definition isCallInfoQuiesce (ev : Event) : bool :=
  match ev with CallInfoQuiesce _ _ _ => true | _ => false end.

Definition isPoll (ev : Event) : bool :=
  match ev with CallIsClusterAndStable _ => true | _ => false end.

Definition slept (ev : Event) : Z :=
  match ev with Sleep d => d | _ => 0 end.

(** ** The reconciler *)

Section Reconciler.
Variable w : World.

Definition newAsConn (pod : Pod) : Go (result ASConn) :=
  let '(tlsName, port) := GetServiceTLSNameAndPort w in
  let port :=
    if bool_decide (tlsName = "") || bool_decide (port = None)
    then GetServicePort w else port in
  let host := PodIP pod in
  p ← deref port;
  mret (Ok {| AerospikeHostName := host;
              AerospikePort := p;
              AerospikeTLSName := tlsName |}).

Definition newHostConn (pod : Pod) : Go (result HostConn) :=
  r ← newAsConn pod;
  match r with
  | Err err => mret (Err err)
  | Ok asConn =>
    let host := AerospikeHostName asConn +:+ ":" +:+ pretty (AerospikePort asConn) in
    mret (Ok (NewHostConn host asConn))
  end.

(** The [for _, pod := range podList.Items] loop of
    [newAllHostConnWithOption], on the connections appended so far. *)
Fixpoint hostConnLoop (ignorablePods items : list Pod) (hostConns : list HostConn)
  : Go (result (list HostConn)) :=
  match items with
  | [] => mret (Ok hostConns)
  | pod :: items' =>
    if IsPodTerminating w pod then hostConnLoop ignorablePods items' hostConns
    else if negb (IsPodRunningAndReady w pod) then
      match GetPod (Name pod) ignorablePods with
      | Some _ => hostConnLoop ignorablePods items' hostConns
      | None => mret (Err ("pod " +:+ Name pod +:+ " is not ready"))
      end
    else
      r ← newHostConn pod;
      match r with
      | Err err => mret (Err err)
      | Ok hostConn => hostConnLoop ignorablePods items' (hostConns ++ [hostConn])
      end
  end.

Definition newAllHostConnWithOption (ignorablePods : list Pod)
  : Go (result (list HostConn)) :=
  r ← call CallGetClusterPodList (getClusterPodList w);
  match r with
  | Err err => mret (Err err)
  | Ok items =>
    if bool_decide (length items = 0%nat) then mret (Err "pod list empty")
    else hostConnLoop ignorablePods items []
  end.

Definition newAllHostConn : Go (result (list HostConn)) :=
  newAllHostConnWithOption [].

Definition maxRetry : Z := 12.
Definition retryInterval : Z := Second * 10.

(** The loop of [waitForClusterStability].  [n] is the number of iterations
    left, [maxRetry + 1 - idx], so that [idx <= maxRetry] exactly when [n]
    is not zero.  [isStable] is the variable declared before the loop; the
    [isStable, err := ...] of the body declares a variable of its own, here
    [isStable1], and leaves the outer one as it is. *)
Fixpoint stabilityLoop (allHostConns : list HostConn) (n : nat) (idx : Z)
    (isStable : bool) : Go (LoopExit reconcileResult bool) :=
  match n with
  | O => mret (Fallthrough isStable)
  | S n' =>
    _ ← call (Sleep retryInterval) ();
    r ← call (CallIsClusterAndStable allHostConns) (IsClusterAndStable w idx allHostConns);
    match r with
    | Err err => mret (Return (reconcileError err))
    | Ok isStable1 =>
      if (isStable1 : bool) then mret (Fallthrough isStable)
      else stabilityLoop allHostConns n' (idx + 1) isStable
    end
  end.

Definition waitForClusterStability (allHostConns : list HostConn) : Go reconcileResult :=
  let isStable := false in
  exit ← stabilityLoop allHostConns (Z.to_nat (maxRetry + 1 - 1)) 1 isStable;
  match exit with
  | Return res => mret res
  | Fallthrough isStable =>
    if negb isStable then mret (reconcileRequeueAfter 60)
    else mret reconcileSuccess
  end.

Definition waitForNodeSafeStopReadyAndQuiesce (pod : Pod) (ignorablePods : list Pod)
    (ns : string) : Go reconcileResult :=
  err ← call CallWaitForAllSTSToBeReady (waitForAllSTSToBeReady w);
  match err with
  | Some err =>
    mret (reconcileError ("failed to wait for cluster to be ready: " +:+ err))
  | None =>
    r ← newAllHostConnWithOption ignorablePods;
    match r with
    | Err err =>
      mret (reconcileError
              ("failed to get hostConn for aerospike cluster nodes: " +:+ err))
    | Ok allHostConns =>
      res ← waitForClusterStability allHostConns;
      if negb (isSuccess res) then mret res
      else
        r ← newHostConn pod;
        match r with
        | Err err => mret (reconcileError err)
        | Ok selectedHostConn =>
          err ← call (CallInfoQuiesce allHostConns selectedHostConn ns)
                     (InfoQuiesce w allHostConns selectedHostConn ns);
          match err with
          | Some err => mret (reconcileError err)
          | None => mret reconcileSuccess
          end
        end
    end
  end.

(** The [for _, ns := range namespaces] loop of [waitForNodeSafeStopReady];
    every exit but the last is a [return] of the function. *)
Fixpoint scopeLoop (pod : Pod) (ignorablePods : list Pod) (hostConn : HostConn)
    (namespaces : list string) : Go reconcileResult :=
  match namespaces with
  | [] => mret reconcileSuccess
  | ns :: namespaces' =>
    r ← call (CallIsNamespaceSCEnabled hostConn ns) (isNamespaceSCEnabled w hostConn ns);
    match r with
    | Err err => mret (reconcileError err)
    | Ok isEnabled =>
      if negb isEnabled then waitForNodeSafeStopReadyAndQuiesce pod ignorablePods ns
      else
        r ← call (CallIsNodeInRoster hostConn ns) (isNodeInRoster w hostConn ns);
        match r with
        | Err err => mret (reconcileError err)
        | Ok isInRoster =>
          if (isInRoster : bool) then waitForNodeSafeStopReadyAndQuiesce pod ignorablePods ns
          else scopeLoop pod ignorablePods hostConn namespaces'
        end
    end
  end.

Definition waitForNodeSafeStopReady (pod : Pod) (ignorablePods : list Pod)
  : Go reconcileResult :=
  r ← newHostConn pod;
  match r with
  | Err err => mret (reconcileError err)
  | Ok hostConn =>
    r ← call (CallGetNamespaces hostConn) (getNamespaces w hostConn);
    match r with
    | Err err => mret (reconcileError err)
    | Ok namespaces => scopeLoop pod ignorablePods hostConn namespaces
    end
  end.

(** The decision taken by the loop of [waitForNodeSafeStopReady]: the same
    loop, with the namespace handed to [waitForNodeSafeStopReadyAndQuiesce]
    as its value; [None] when the loop runs to its end.
    [scopeLoop_selectDrainScope] below relates the two. *)
Fixpoint selectDrainScope (hostConn : HostConn) (namespaces : list string)
  : Go (result (option string)) :=
  match namespaces with
  | [] => mret (Ok None)
  | ns :: namespaces' =>
    r ← call (CallIsNamespaceSCEnabled hostConn ns) (isNamespaceSCEnabled w hostConn ns);
    match r with
    | Err err => mret (Err err)
    | Ok isEnabled =>
      if negb isEnabled then mret (Ok (Some ns))
      else
        r ← call (CallIsNodeInRoster hostConn ns) (isNodeInRoster w hostConn ns);
        match r with
        | Err err => mret (Err err)
        | Ok isInRoster =>
          if (isInRoster : bool) then mret (Ok (Some ns))
          else selectDrainScope hostConn namespaces'
        end
    end
  end.

(** [tipClearHostname] and [tipHostname]: a heartbeat call is made only
    when its port is configured ([if heartbeatTlsPort != nil], then
    [if heartbeatPort != nil]); a call that is not made leaves [err] nil. *)
Definition tipClearHostname (pod : Pod) (clearPodName : string) : Go (option error) :=
  r ← newAsConn pod;
  match r with
  | Err err => mret (Some err)
  | Ok asConn =>
    let '(_, heartbeatTlsPort) := GetHeartbeatTLSNameAndPort w in
    err ← match heartbeatTlsPort with
          | Some port =>
            call (CallTipClearHostname asConn (getFQDNForPod w clearPodName) port)
                 (TipClearHostname w asConn (getFQDNForPod w clearPodName) port)
          | None => mret None
          end;
    match err with
    | Some err => mret (Some err)
    | None =>
      let heartbeatPort := GetHeartbeatPort w in
      err ← match heartbeatPort with
            | Some port =>
              call (CallTipClearHostname asConn (getFQDNForPod w clearPodName) port)
                   (TipClearHostname w asConn (getFQDNForPod w clearPodName) port)
            | None => mret None
            end;
      match err with
      | Some err => mret (Some err)
      | None => mret None
      end
    end
  end.

Definition tipHostname (pod clearPod : Pod) : Go (option error) :=
  r ← newAsConn pod;
  match r with
  | Err err => mret (Some err)
  | Ok asConn =>
    let '(_, heartbeatTlsPort) := GetHeartbeatTLSNameAndPort w in
    err ← match heartbeatTlsPort with
          | Some port =>
            call (CallTipHostname asConn (getFQDNForPod w (Name clearPod)) port)
                 (TipHostname w asConn (getFQDNForPod w (Name clearPod)) port)
          | None => mret None
          end;
    match err with
    | Some err => mret (Some err)
    | None =>
      let heartbeatPort := GetHeartbeatPort w in
      err ← match heartbeatPort with
            | Some port =>
              call (CallTipHostname asConn (getFQDNForPod w (Name clearPod)) port)
                   (TipHostname w asConn (getFQDNForPod w (Name clearPod)) port)
            | None => mret None
            end;
      match err with
      | Some err => mret (Some err)
      | None => mret None
      end
    end
  end.

Definition alumniReset (pod : Pod) : Go (option error) :=
  r ← newAsConn pod;
  match r with
  | Err err => mret (Some err)
  | Ok asConn => call (CallAlumniReset asConn) (AlumniReset w asConn)
  end.

(** The heartbeat ports that are configured, in the order the tip calls
    use them: TLS first. *)
Definition heartbeatPorts : list Z :=
  option_list (GetHeartbeatTLSNameAndPort w).2 ++ option_list (GetHeartbeatPort w).

End Reconciler.

(** ** Vocabulary of the statements *)

(** One attempt of the stability monitor: the wait, then the poll. *)
Definition attempt (allHostConns : list HostConn) : list Event :=
  [Sleep retryInterval; CallIsClusterAndStable allHostConns].

Fixpoint attempts (allHostConns : list HostConn) (n : nat) : list Event :=
  match n with
  | O => []
  | S n' => attempt allHostConns ++ attempts allHostConns n'
  end.

(** The number of stability polls of a run. *)
Definition polls (t : list Event) : nat := length (List.filter isPoll t).

(** The time a run has spent in [time.Sleep]. *)
Definition totalSlept (t : list Event) : Z :=
  foldr (λ ev acc, slept ev + acc) 0 t.

(** ** Sample worlds, for running the model *)

(** A cluster of the pods [pods], all listed without error, with plain
    service port 3000 and the heartbeat ports [hbTls] and [hb]. *)
Definition sampleWorld (hbTls hb : option Z) (pods : list Pod)
    (terminating ready : string → bool) (namespaces : list string)
    (sc roster : string → result bool) (stable : Z → result bool)
    (tip : Z → option error) : World := {|
  GetServiceTLSNameAndPort := ("", None);
  GetServicePort := Some 3000;
  GetHeartbeatTLSNameAndPort := ("", hbTls);
  GetHeartbeatPort := hb;
  getFQDNForPod := λ podName, podName +:+ ".aerocluster.test";
  IsPodTerminating := λ p, terminating (Name p);
  IsPodRunningAndReady := λ p, ready (Name p);
  getClusterPodList := Ok pods;
  waitForAllSTSToBeReady := None;
  getNamespaces := λ _, Ok namespaces;
  isNamespaceSCEnabled := λ _ ns, sc ns;
  isNodeInRoster := λ _ ns, roster ns;
  IsClusterAndStable := λ idx _, stable idx;
  InfoQuiesce := λ _ _ _, None;
  TipHostname := λ _ _ port, tip port;
  TipClearHostname := λ _ _ port, tip port;
  AlumniReset := λ _, None
|}.

Definition podA : Pod := {| Name := "aerocluster-0-0"; PodIP := "10.0.0.1" |}.
Definition podB : Pod := {| Name := "aerocluster-0-1"; PodIP := "10.0.0.2" |}.
Definition podC : Pod := {| Name := "aerocluster-0-2"; PodIP := "10.0.0.3" |}.

Definition asConnOfA : ASConn :=
  {| AerospikeHostName := "10.0.0.1"; AerospikePort := 3000; AerospikeTLSName := "" |}.
Definition connOfA : HostConn := NewHostConn "10.0.0.1:3000" asConnOfA.

(** Namespace "test" is available-mode, "bar" is strong-consistency with
    the node in its roster, "foo" is strong-consistency without it. *)
Definition sampleSC (ns : string) : result bool :=
  Ok (negb (bool_decide (ns = "test"))).
Definition sampleRoster (ns : string) : result bool :=
  Ok (bool_decide (ns = "bar")).

(** A cluster whose stability poll answers stable from attempt [k] on. *)
Definition stableFrom (k : Z) (idx : Z) : result bool := Ok (k <=? idx).

Definition clusterWorld (namespaces : list string) (stable : Z → result bool) : World :=
  sampleWorld None (Some 3002) [podA; podB; podC] (λ _, false) (λ _, true)
    namespaces sampleSC sampleRoster stable (λ _, None).

(** The cluster of [podA], [podB] and [podC] with the one namespace "test":
    never stable, or stable from attempt [k] on. *)
Definition neverStableWorld : World := clusterWorld ["test"] (λ _, Ok false).
Definition stableWorld (k : Z) : World := clusterWorld ["test"] (stableFrom k).

(** ** Vocabulary of the topology snapshot *)

(** A pod the snapshot passes over: terminating, or not running-and-ready
    and among the ignorable pods. *)
Definition skipped (w : World) (ignorablePods : list Pod) (pod : Pod) : bool :=
  IsPodTerminating w pod
  || (negb (IsPodRunningAndReady w pod)
      && bool_decide (is_Some (GetPod (Name pod) ignorablePods))).

(** A pod that makes the snapshot fail: not terminating, not
    running-and-ready and not among the ignorable pods. *)
Definition blocking (w : World) (ignorablePods : list Pod) (pod : Pod) : bool :=
  negb (IsPodTerminating w pod)
  && negb (IsPodRunningAndReady w pod)
  && bool_decide (GetPod (Name pod) ignorablePods = None).

(** The empty-topology failure as it is claimed: whenever every listed pod
    is passed over, the snapshot returns an error. *)
Definition emptyTopologyIsError (w : World) (ignorablePods : list Pod) : Prop :=
  ∀ items,
    getClusterPodList w = Ok items →
    (∀ pod, pod ∈ items → skipped w ignorablePods pod = true) →
    ∃ err, outcome (newAllHostConnWithOption w ignorablePods) = Returns (Err err).

(** [podA] is running and ready, [podB] is not (pending or failed), and
    [podC] is terminating. *)
Definition mixedWorld : World :=
  sampleWorld None (Some 3002) [podA; podB; podC]
    (λ n, bool_decide (n = "aerocluster-0-2"))
    (λ n, bool_decide (n = "aerocluster-0-0"))
    ["test"] sampleSC sampleRoster (stableFrom 1) (λ _, None).

(** A cluster whose only pod is terminating. *)
Definition terminatingWorld : World :=
  sampleWorld None (Some 3002) [podC] (λ _, true) (λ _, false)
    ["test"] sampleSC sampleRoster (stableFrom 1) (λ _, None).

(** A cluster without pods. *)
Definition emptyWorld : World :=
  sampleWorld None (Some 3002) [] (λ _, false) (λ _, true)
    ["test"] sampleSC sampleRoster (stableFrom 1) (λ _, None).

(** A cluster with both heartbeat channels, TLS on port 3012 and plain on
    port 3002, whose tip calls answer [tip]. *)
Definition heartbeatWorld (tip : Z → option error) : World :=
  sampleWorld (Some 3012) (Some 3002) [podA; podB; podC] (λ _, false) (λ _, true)
    ["test"] sampleSC sampleRoster (stableFrom 1) tip.

(** The TLS heartbeat call is refused, the plain one is not. *)
Definition tlsRefused (port : Z) : option error :=
  if bool_decide (port = 3012) then Some "tip refused" else None.

(** ** Vocabulary of the drain-scope decision *)

(** The two classifier queries about one namespace, in the order the loop
    issues them. *)
Definition queries (hostConn : HostConn) (ns : string) : list Event :=
  [CallIsNamespaceSCEnabled hostConn ns; CallIsNodeInRoster hostConn ns].

(** What [waitForNodeSafeStopReady] does with the decision. *)
Definition afterScope (w : World) (pod : Pod) (ignorablePods : list Pod)
    (r : result (option string)) : Go reconcileResult :=
  match r with
  | Err err => mret (reconcileError err)
  | Ok (Some ns) => waitForNodeSafeStopReadyAndQuiesce w pod ignorablePods ns
  | Ok None => mret reconcileSuccess
  end.

(** A quiesce call respects the roster of a strong-consistency namespace. *)
Definition rosterSafe (w : World) (hostConn : HostConn) (ev : Event) : Prop :=
  match ev with
  | CallInfoQuiesce _ _ ns =>
    isNamespaceSCEnabled w hostConn ns = Ok true → isNodeInRoster w hostConn ns = Ok true
  | _ => True
  end.

(** A quiesce call is scoped to the namespace [ns]. *)
Definition quiesceFor (ns : string) (ev : Event) : Prop :=
  match ev with
  | CallInfoQuiesce _ _ ns' => ns' = ns
  | _ => True
  end.

(** ** More sample worlds *)

(** [w] with another service configuration. *)
Definition withService (tls : string * option Z) (plain : option Z) (w : World) : World := {|
  GetServiceTLSNameAndPort := tls;
  GetServicePort := plain;
  GetHeartbeatTLSNameAndPort := GetHeartbeatTLSNameAndPort w;
  GetHeartbeatPort := GetHeartbeatPort w;
  getFQDNForPod := getFQDNForPod w;
  IsPodTerminating := IsPodTerminating w;
  IsPodRunningAndReady := IsPodRunningAndReady w;
  getClusterPodList := getClusterPodList w;
  waitForAllSTSToBeReady := waitForAllSTSToBeReady w;
  getNamespaces := getNamespaces w;
  isNamespaceSCEnabled := isNamespaceSCEnabled w;
  isNodeInRoster := isNodeInRoster w;
  IsClusterAndStable := IsClusterAndStable w;
  InfoQuiesce := InfoQuiesce w;
  TipHostname := TipHostname w;
  TipClearHostname := TipClearHostname w;
  AlumniReset := AlumniReset w
|}.

(** [w] with other answers of the Kubernetes API: the pod listing and the
    wait for the stateful sets. *)
Definition withKubernetes (pods : result (list Pod)) (sts : option error) (w : World)
  : World := {|
  GetServiceTLSNameAndPort := GetServiceTLSNameAndPort w;
  GetServicePort := GetServicePort w;
  GetHeartbeatTLSNameAndPort := GetHeartbeatTLSNameAndPort w;
  GetHeartbeatPort := GetHeartbeatPort w;
  getFQDNForPod := getFQDNForPod w;
  IsPodTerminating := IsPodTerminating w;
  IsPodRunningAndReady := IsPodRunningAndReady w;
  getClusterPodList := pods;
  waitForAllSTSToBeReady := sts;
  getNamespaces := getNamespaces w;
  isNamespaceSCEnabled := isNamespaceSCEnabled w;
  isNodeInRoster := isNodeInRoster w;
  IsClusterAndStable := IsClusterAndStable w;
  InfoQuiesce := InfoQuiesce w;
  TipHostname := TipHostname w;
  TipClearHostname := TipClearHostname w;
  AlumniReset := AlumniReset w
|}.

(** [w] with other answers of the node: the namespace listing, the two
    classifier queries and the alumni reset. *)
Definition withNode (namespaces : result (list string))
    (sc roster : string → result bool) (alumni : option error) (w : World) : World := {|
  GetServiceTLSNameAndPort := GetServiceTLSNameAndPort w;
  GetServicePort := GetServicePort w;
  GetHeartbeatTLSNameAndPort := GetHeartbeatTLSNameAndPort w;
  GetHeartbeatPort := GetHeartbeatPort w;
  getFQDNForPod := getFQDNForPod w;
  IsPodTerminating := IsPodTerminating w;
  IsPodRunningAndReady := IsPodRunningAndReady w;
  getClusterPodList := getClusterPodList w;
  waitForAllSTSToBeReady := waitForAllSTSToBeReady w;
  getNamespaces := λ _, namespaces;
  isNamespaceSCEnabled := λ _, sc;
  isNodeInRoster := λ _, roster;
  IsClusterAndStable := IsClusterAndStable w;
  InfoQuiesce := InfoQuiesce w;
  TipHostname := TipHostname w;
  TipClearHostname := TipClearHostname w;
  AlumniReset := λ _, alumni
|}.

(** Service over TLS on port 4333; TLS named but without a TLS port; and no
    service port at all. *)
Definition tlsWorld : World :=
  withService ("aerospike-a-0.test-runner", Some 4333) (Some 3000) (stableWorld 1).
Definition tlsNameOnlyWorld : World :=
  withService ("aerospike-a-0.test-runner", None) (Some 3000) (stableWorld 1).
Definition noPortWorld : World :=
  withService ("", None) None mixedWorld.

(** The classifier queries fail on the namespace "bad": the
    strong-consistency query in [scFails], the roster query in
    [rosterFails]. *)
Definition scFails (ns : string) : result bool :=
  if bool_decide (ns = "bad") then Err "info call timed out" else sampleSC ns.
Definition rosterFails (ns : string) : result bool :=
  if bool_decide (ns = "bad") then Err "roster unavailable" else sampleRoster ns.

(** The stability poll fails at attempt [k] and reports no stability
    before. *)
Definition failsAt (k : Z) (idx : Z) : result bool :=
  if bool_decide (idx = k) then Err "connection refused" else Ok false.

(** No event of the run is a quiesce call. *)
Definition noQuiesce (t : list Event) : Prop :=
  Forall (λ ev, isCallInfoQuiesce ev = false) t.

(** ** waitForNodeSafeStopReady with its log lines *)

Definition isLog (ev : Event) : bool :=
  match ev with LogInfo _ _ => true | _ => false end.

(** A trace without its log lines. *)
Definition withoutLog (t : list Event) : list Event :=
  List.filter (λ ev, negb (isLog ev)) t.

Module Logged.
Section Logged.
Variable w : World.

(** [r.Log.Info(msg, keysAndValues...)]. *)
Definition Info (msg : string) (keysAndValues : list (string * LogValue)) : Go unit :=
  call (LogInfo msg keysAndValues) ().

(** The [for _, ns := range namespaces] loop, every statement of it, and
    the two statements behind it.  [quiesce] is the flow the loop enters
    with the namespace it has chosen,
    [r.waitForNodeSafeStopReadyAndQuiesce(policy, pod, ignorablePods, ns)]
    as a function of [ns]; it is a parameter so that a statement about the
    loop tells the namespace the flow is entered with. *)
Fixpoint scopeLoop (quiesce : string → Go reconcileResult) (pod : Pod)
    (hostConn : HostConn) (namespaces : list string) : Go reconcileResult :=
  match namespaces with
  | [] =>
    _ ← Info "Quiesce not needed in node. Node is blacklisted or does not have any non-sc namespace"
             [("node", LogString (Name pod))];
    mret reconcileSuccess
  | ns :: namespaces' =>
    r ← call (CallIsNamespaceSCEnabled hostConn ns) (isNamespaceSCEnabled w hostConn ns);
    match r with
    | Err err => mret (reconcileError err)
    | Ok isEnabled =>
      if negb isEnabled then
        _ ← Info "Namespace is not sc enabled, do quiesce using this namespace"
                 [("namespace", LogString ns)];
        quiesce ns
      else
        r ← call (CallIsNodeInRoster hostConn ns) (isNodeInRoster w hostConn ns);
        match r with
        | Err err => mret (reconcileError err)
        | Ok isInRoster =>
          if (isInRoster : bool) then
            _ ← Info "Namespace is sc enabled and in roster, do quiesce using this namespce"
                     [("namespace", LogString ns)];
            quiesce ns
          else
            _ ← Info "Node is not in roster for namespace. Skip quiesce"
                     [("node", LogString (Name pod)); ("namespace", LogString ns)];
            scopeLoop quiesce pod hostConn namespaces'
        end
    end
  end.

Definition waitForNodeSafeStopReady (pod : Pod) (ignorablePods : list Pod)
  : Go reconcileResult :=
  _ ← Info "Do quiesce for node" [("node", LogString (Name pod))];
  r ← newHostConn w pod;
  match r with
  | Err err => mret (reconcileError err)
  | Ok hostConn =>
    r ← call (CallGetNamespaces hostConn) (getNamespaces w hostConn);
    match r with
    | Err err => mret (reconcileError err)
    | Ok namespaces =>
      _ ← Info "Namespace list" [("namespaces", LogStrings namespaces)];
      scopeLoop (waitForNodeSafeStopReadyAndQuiesce w pod ignorablePods)
                pod hostConn namespaces
    end
  end.

End Logged.
End Logged.

(** ** Vocabulary of the logged loop *)

(** What the loop does about a namespace it passes: the two queries and
    the log line that the node is not in the roster. *)
Definition passed (pod : Pod) (hostConn : HostConn) (ns : string) : list Event :=
  [CallIsNamespaceSCEnabled hostConn ns;
   CallIsNodeInRoster hostConn ns;
   LogInfo "Node is not in roster for namespace. Skip quiesce"
           [("node", LogString (Name pod)); ("namespace", LogString ns)]].

(** The loop selects [ns]: whatever flow it is given to enter, it enters
    it with [ns], as its last act, after the same calls [t]. *)
Definition selects (w : World) (pod : Pod) (hostConn : HostConn)
    (namespaces : list string) (ns : string) : Prop :=
  ∃ t, ∀ quiesce,
    Logged.scopeLoop w quiesce pod hostConn namespaces
      = (outcome (quiesce ns), t ++ trace (quiesce ns)).

(** The loop selects nothing: it ends with [res], the same whatever flow
    it is given, and never enters it. *)
Definition selectsNone (w : World) (pod : Pod) (hostConn : HostConn)
    (namespaces : list string) (res : reconcileResult) : Prop :=
  ∃ t, noQuiesce t ∧ ∀ quiesce,
    Logged.scopeLoop w quiesce pod hostConn namespaces = (Returns res, t).

(** A log line that announces the quiesce scope names a namespace that is
    not strong-consistency or has the node in its roster. *)
Definition scopeLogSafe (w : World) (hostConn : HostConn) (ev : Event) : Prop :=
  match ev with
  | LogInfo msg keysAndValues =>
    msg = "Namespace is not sc enabled, do quiesce using this namespace" ∨
    msg = "Namespace is sc enabled and in roster, do quiesce using this namespce" →
    ∃ ns, keysAndValues = [("namespace", LogString ns)] ∧
          (isNamespaceSCEnabled w hostConn ns = Ok true →
           isNodeInRoster w hostConn ns = Ok true)
  | _ => True
  end.

(** A flow that leaves its namespace in the trace: it tells which
    namespace the loop has selected. *)
Definition marker (hostConn : HostConn) (ns : string) : Go reconcileResult :=
  (Returns reconcileSuccess, [CallInfoQuiesce [] hostConn ns]).
Example parse_demo :
  ParseInfoIntoMap "a=1;;b=x=y;a=2" ";" "=" = Ok (<["a" := "2"]> (<["b" := "x=y"]> ∅)).
Proof. vm_compute. reflexivity. Qed.

Example split_demo1 : strings.Split "a,b,,c" "," = ["a"; "b"; ""; "c"].
Proof. reflexivity. Qed.
Example split_demo2 : strings.Split "" "," = [""].
Proof. reflexivity. Qed.
Example split_demo3 : strings.Split "abc" "" = ["a"; "b"; "c"].
Proof. reflexivity. Qed.
Example split_demo4 : strings.Split "aaa" "aa" = [""; "a"].
Proof. reflexivity. Qed.

Example split_demo5 : strings.Split "a" "" = ["a"].
Proof. reflexivity. Qed.

(** With the empty separator an item of two characters is a key and a
    value, an item of one character is an error. *)
Example parse_empty_separator :
  ParseInfoIntoMap "ab" "," "" = Ok (<["a" := "b"]> ∅) ∧
  ParseInfoIntoMap "a" "," "" = Err "error parsing info item a".
Proof. split; vm_compute; reflexivity. Qed.

(** ** Facts about the string functions *)

Section string_facts.
Import strings.

Lemma take_drop n s : take n s +:+ drop n s = s.
Proof.
  revert s; induction n as [|n IH]; intros [|a s]; simpl; try reflexivity.
  unfold String.app; simpl. f_equal. apply IH.
Qed.

Lemma drop_0 s : drop 0 s = s.
Proof. destruct s; reflexivity. Qed.

Lemma drop_drop n m s : drop n (drop m s) = drop (m + n) s.
Proof.
  revert s; induction m as [|m IH]; intros s; simpl.
  - reflexivity.
  - destruct s as [|a s]; simpl; [destruct n; reflexivity | apply IH].
Qed.

Lemma length_drop n s : String.length (drop n s) = (String.length s - n)%nat.
Proof.
  revert s; induction n as [|n IH]; intros [|a s]; simpl; try reflexivity.
  apply IH.
Qed.

Lemma length_app s t :
  String.length (s +:+ t) = (String.length s + String.length t)%nat.
Proof.
  induction s as [|a s IH]; simpl; [reflexivity|].
  unfold String.app in *; simpl. f_equal. apply IH.
Qed.

Lemma drop_app p t : drop (String.length p) (p +:+ t) = t.
Proof. induction p as [|a p IH]; simpl; [reflexivity | apply IH]. Qed.

Lemma HasPrefix_app p t : HasPrefix (p +:+ t) p = true.
Proof.
  induction p as [|a p IH]; simpl; [reflexivity|].
  unfold String.app; simpl. rewrite decide_True by reflexivity. apply IH.
Qed.

Lemma HasPrefix_inv s p :
  HasPrefix s p = true → s = p +:+ drop (String.length p) s.
Proof.
  revert s; induction p as [|a p IH]; intros s H; simpl in *.
  - reflexivity.
  - destruct s as [|b s]; [discriminate|].
    destruct (decide (a = b)) as [->|]; [|discriminate].
    unfold String.app; simpl. f_equal. apply IH, H.
Qed.

Lemma HasPrefix_empty s : HasPrefix s "" = true.
Proof. destruct s; reflexivity. Qed.

(** [Index] returns an occurrence, and the leftmost one. *)
Lemma Index_Some s sep m :
  Index s sep = Some m →
  HasPrefix (drop m s) sep = true ∧ (m ≤ String.length s)%nat ∧
  ∀ j, (j < m)%nat → HasPrefix (drop j s) sep = false.
Proof.
  revert m; induction s as [|a s IH]; intros m H.
  - simpl in H. destruct (HasPrefix "" sep) eqn:E; [|discriminate].
    injection H as <-. simpl. split; [exact E|]. split; [lia|]. intros; lia.
  - cbn [Index] in H. destruct (HasPrefix (String a s) sep) eqn:E.
    + injection H as <-. rewrite drop_0. split; [exact E|].
      split; [lia|]. intros; lia.
    + destruct (Index s sep) as [m'|] eqn:Hi; [|discriminate].
      injection H as <-. destruct (IH m' eq_refl) as (H1 & H2 & H3).
      split; [exact H1|]. split; [simpl; lia|].
      intros [|j] Hj; [rewrite drop_0; exact E|].
      simpl. apply H3. lia.
Qed.

Lemma Index_None s sep :
  Index s sep = None → ∀ j, HasPrefix (drop j s) sep = false.
Proof.
  induction s as [|a s IH]; intros H j.
  - simpl in H. destruct (HasPrefix "" sep) eqn:E; [discriminate|].
    destruct j; exact E.
  - cbn [Index] in H. destruct (HasPrefix (String a s) sep) eqn:E; [discriminate|].
    destruct (Index s sep) eqn:Hi; [discriminate|].
    destruct j as [|j]; [rewrite drop_0; exact E|]. simpl. apply IH. reflexivity.
Qed.

Lemma Index_empty s : Index s "" = Some 0%nat.
Proof. destruct s; reflexivity. Qed.

(** The cut at the leftmost occurrence: [s = s[:m] + sep + s[m+len(sep):]]. *)
Lemma Index_decomp s sep m :
  Index s sep = Some m →
  s = take m s +:+ sep +:+ drop (m + String.length sep) s ∧
  (m + String.length sep ≤ String.length s)%nat.
Proof.
  intros H. destruct (Index_Some _ _ _ H) as (Hp & Hm & _).
  apply HasPrefix_inv in Hp. rewrite drop_drop in Hp.
  split.
  - rewrite <- Hp. symmetry. apply take_drop.
  - assert (String.length (drop m s) =
            String.length (sep +:+ drop (m + String.length sep) s)) as HL
      by (rewrite <- Hp; reflexivity).
    rewrite length_app, !length_drop in HL. lia.
Qed.

Lemma genSplit_nonempty n s sep : genSplit n s sep ≠ [].
Proof. destruct n; simpl; [discriminate|]. destruct (Index s sep); discriminate. Qed.

Lemma Join_cons x l sep : l ≠ [] → Join (x :: l) sep = x +:+ sep +:+ Join l sep.
Proof. destruct l; [congruence | reflexivity]. Qed.

(** Joining the pieces of a split gives the string back. *)
Lemma Join_genSplit n s sep :
  sep ≠ "" → (String.length s ≤ n)%nat → Join (genSplit n s sep) sep = s.
Proof.
  intros Hsep. revert s; induction n as [|n IH]; intros s Hn; simpl.
  - reflexivity.
  - destruct (Index s sep) as [m|] eqn:Hi; [|reflexivity].
    rewrite Join_cons by apply genSplit_nonempty.
    destruct (Index_decomp _ _ _ Hi) as [Hd Hl].
    rewrite IH.
    + symmetry. exact Hd.
    + rewrite length_drop. destruct sep; [congruence|]. simpl in *. lia.
Qed.

(** With enough cuts allowed, their number does not matter: the model of
    [genSplit] loses nothing by starting from the length of [s]. *)
Lemma genSplit_fuel n s sep :
  sep ≠ "" → (String.length s ≤ n)%nat →
  genSplit n s sep = genSplit (String.length s) s sep.
Proof.
  intros Hsep. revert s.
  induction n as [n IH] using lt_wf_ind. intros s Hn.
  destruct n as [|n].
  - destruct s; [reflexivity | simpl in Hn; lia].
  - simpl. destruct (Index s sep) as [m|] eqn:Hi.
    + destruct (Index_decomp _ _ _ Hi) as [_ Hl].
      assert (0 < String.length sep)%nat by (destruct sep; [congruence | simpl; lia]).
      destruct (String.length s) as [|k] eqn:Hk; [lia|].
      simpl. rewrite Hi. f_equal.
      assert (String.length (drop (m + String.length sep) s) ≤ k)%nat
        by (rewrite length_drop; lia).
      rewrite (IH n) by lia. rewrite (IH k) by lia. reflexivity.
    + destruct (String.length s); simpl; [reflexivity | rewrite Hi; reflexivity].
Qed.

(** [Split] on a non-empty separator, by cases on [Index]. *)
Lemma Split_Index s sep :
  sep ≠ "" →
  Split s sep =
  match Index s sep with
  | None => [s]
  | Some m => take m s :: Split (drop (m + String.length sep) s) sep
  end.
Proof.
  intros Hsep. unfold Split. destruct (decide (sep = "")) as [?|_]; [congruence|].
  destruct (Index s sep) as [m|] eqn:Hi.
  - destruct (Index_decomp _ _ _ Hi) as [_ Hl].
    assert (0 < String.length sep)%nat by (destruct sep; [congruence | simpl; lia]).
    destruct (String.length s) as [|k] eqn:Hk; [lia|].
    simpl. rewrite Hi. f_equal. apply genSplit_fuel; [exact Hsep|].
    rewrite length_drop. lia.
  - destruct (String.length s); simpl; [reflexivity | rewrite Hi; reflexivity].
Qed.

Lemma Split_nonempty s sep : sep ≠ "" → Split s sep ≠ [].
Proof.
  intros Hsep. unfold Split. rewrite decide_False by exact Hsep.
  apply genSplit_nonempty.
Qed.

Lemma Join_Split s sep : sep ≠ "" → Join (Split s sep) sep = s.
Proof.
  intros Hsep. unfold Split. rewrite decide_False by exact Hsep.
  apply Join_genSplit; [exact Hsep | lia].
Qed.

(** A rune of a non-empty string is at least one byte wide, so the length
    of the string bounds the number of pieces of [explode]. *)
Lemma DecodeRuneInString_size s :
  s ≠ "" → (1 ≤ (DecodeRuneInString s).2)%nat.
Proof.
  destruct s as [|a s]; [congruence|]. intros _. unfold DecodeRuneInString.
  repeat case_match; simplify_eq/=; lia.
Qed.

Lemma explode_fuel n s :
  (String.length s ≤ n)%nat → explode n s = explode (String.length s) s.
Proof.
  revert s. induction n as [n IH] using lt_wf_ind. intros s Hn.
  destruct s as [|a s]; [destruct n; reflexivity|].
  destruct n as [|n]; [simpl in Hn; lia|].
  pose proof (DecodeRuneInString_size (String a s) ltac:(discriminate)) as Hsz.
  cbn [explode String.length].
  destruct (DecodeRuneInString (String a s)) as [valid size]. cbn [snd] in Hsz.
  pose proof (length_drop size (String a s)) as Hl. cbn [String.length] in Hl, Hn.
  destruct (drop size (String a s)) as [|b rest] eqn:Hd; [reflexivity|].
  f_equal. rewrite (IH n) by lia. rewrite (IH (String.length s)) by lia.
  reflexivity.
Qed.

End string_facts.

Section parser_facts.
Import strings.

Lemma Split_cut item sep :
  sep ≠ "" →
  match cutFirst item sep with
  | Some (k, v) => ∃ kv1 kv2, Split item sep = k :: kv1 :: kv2 ∧ Join (kv1 :: kv2) sep = v
  | None => Split item sep = [item]
  end.
Proof.
  intros Hsep. unfold cutFirst. rewrite (Split_Index item sep Hsep).
  destruct (Index item sep) as [i|]; simpl; [|reflexivity].
  pose proof (Split_nonempty (drop (i + String.length sep) item) sep Hsep) as Hne.
  pose proof (Join_Split (drop (i + String.length sep) item) sep Hsep) as Hj.
  destruct (Split (drop (i + String.length sep) item) sep) as [|kv1 kv2]; [congruence|].
  exists kv1, kv2. split; [reflexivity | exact Hj].
Qed.

Lemma parseItems_cons item items sep m :
  sep ≠ "" →
  parseItems (item :: items) sep m =
  if decide (item = "") then parseItems items sep m
  else match cutFirst item sep with
       | Some (k, v) => parseItems items sep (<[k := v]> m)
       | None => Err ("error parsing info item " +:+ item)
       end.
Proof.
  intros Hsep. cbn [parseItems]. destruct (decide (item = "")); [reflexivity|].
  pose proof (Split_cut item sep Hsep) as H.
  destruct (cutFirst item sep) as [[k v]|].
  - destruct H as (kv1 & kv2 & -> & <-). reflexivity.
  - rewrite H. reflexivity.
Qed.

(** Empty items change nothing. *)
Lemma parseItems_filter items sep m :
  parseItems items sep m = parseItems (filter (λ s, s ≠ "") items) sep m.
Proof.
  revert m; induction items as [|item items IH]; intros m; [reflexivity|].
  destruct (decide (item = "")) as [E|E].
  - rewrite filter_cons_False by (intros H; apply H, E).
    cbn [parseItems]. rewrite decide_True by exact E. apply IH.
  - rewrite filter_cons_True by exact E.
    cbn [parseItems]. destruct (decide (item = "")) as [?|_]; [congruence|].
    destruct (Split item sep) as [|kv0 [|kv1 kv2]]; try reflexivity. apply IH.
Qed.

Lemma cutFirst_Contains item sep :
  Contains item sep = false ↔ cutFirst item sep = None.
Proof.
  unfold Contains, cutFirst. destruct (Index item sep); simpl; split; congruence.
Qed.

Lemma parseItems_err items sep m :
  sep ≠ "" →
  isErr (parseItems items sep m) = true ↔
  ∃ item, item ∈ items ∧ item ≠ "" ∧ Contains item sep = false.
Proof.
  intros Hsep. revert m; induction items as [|item items IH]; intros m.
  - simpl. split; [discriminate|]. intros (item & H & _). inversion H.
  - rewrite parseItems_cons by exact Hsep.
    destruct (decide (item = "")) as [E|E].
    + rewrite IH. split; intros (x & Hx & Hn & Hc).
      * exists x. split; [right; exact Hx | auto].
      * exists x. apply elem_of_cons in Hx as [->|Hx]; [congruence | auto].
    + destruct (cutFirst item sep) as [[k v]|] eqn:Hc.
      * rewrite IH. split; intros (x & Hx & Hn & Hcx).
        -- exists x. split; [right; exact Hx | auto].
        -- exists x. apply elem_of_cons in Hx as [->|Hx]; [|auto].
           apply cutFirst_Contains in Hcx. congruence.
      * simpl. split; [intros _ | reflexivity].
        exists item. split; [left|]. split; [exact E|].
        apply cutFirst_Contains, Hc.
Qed.

Lemma parseItems_ok items sep m m' :
  sep ≠ "" →
  parseItems items sep m = Ok m' →
  m' = foldl (assign sep) m (filter (λ s, s ≠ "") items).
Proof.
  intros Hsep. revert m; induction items as [|item items IH]; intros m.
  - simpl. congruence.
  - rewrite parseItems_cons by exact Hsep.
    destruct (decide (item = "")) as [E|E].
    + rewrite filter_cons_False by (intros H; apply H, E). apply IH.
    + rewrite filter_cons_True by exact E. cbn [foldl]. unfold assign at 2.
      destruct (cutFirst item sep) as [[k v]|]; [apply IH | discriminate].
Qed.

(** The value of a key is the one its last item assigns. *)
Lemma foldl_assign_last sep m l1 item l2 k v :
  cutFirst item sep = Some (k, v) →
  (∀ item', item' ∈ l2 → keyOf item' sep ≠ Some k) →
  foldl (assign sep) m (l1 ++ item :: l2) !! k = Some v.
Proof.
  intros Hc Hl2. rewrite foldl_app. cbn [foldl].
  set (m0 := foldl (assign sep) m l1).
  assert (assign sep m0 item !! k = Some v) as H0.
  { unfold assign. rewrite Hc. apply lookup_insert_eq. }
  generalize dependent (assign sep m0 item). clear m0.
  induction l2 as [|x l2 IH]; intros m1 H1; [exact H1|].
  cbn [foldl]. apply IH.
  - intros y Hy. apply Hl2. right. exact Hy.
  - unfold assign. specialize (Hl2 x (ltac:(left))).
    unfold keyOf in Hl2. destruct (cutFirst x sep) as [[k' v']|]; [|exact H1].
    simpl in Hl2. rewrite lookup_insert_ne by congruence. exact H1.
Qed.

End parser_facts.

(** ** ParseInfoIntoMap: claim *)

(** C10 as claimed fails for the empty separator: the one item "a" of the
    input "a" is split into the single piece "a", which is an error,
    although the empty separator occurs in it ([strings.Index] finds it at
    offset 0). *)
Lemma error_iff_fails_for_empty_separator :
  ¬ errorIffItemWithoutSeparator "a" "," "".
Proof.
  intros [H _].
  destruct (H eq_refl) as (item & _ & _ & Hc).
  unfold strings.Contains in Hc. rewrite Index_empty in Hc. discriminate.
Qed.

(** C10, amended.  [ParseInfoIntoMap] returns the empty map and no error
    on the empty input; empty items are skipped; and for a non-empty
    separator it returns an error exactly when some non-empty item has no
    occurrence of the separator, and otherwise the map obtained by
    assigning, item after item, to the part before the item's first
    separator the whole remainder after it, so that a key maps to the
    remainder of the last item that bears it, further separators
    included. *)
Theorem ParseInfoIntoMap_spec (str del sep : string) :
  ParseInfoIntoMap "" del sep = Ok ∅ ∧
  ParseInfoIntoMap str del sep
    = parseItems (filter (λ s, s ≠ "") (strings.Split str del)) sep ∅ ∧
  (sep ≠ "" →
   errorIffItemWithoutSeparator str del sep ∧
   ∀ m, ParseInfoIntoMap str del sep = Ok m →
     m = foldl (assign sep) ∅ (filter (λ s, s ≠ "") (strings.Split str del)) ∧
     ∀ l1 item l2 i,
       filter (λ s, s ≠ "") (strings.Split str del) = l1 ++ item :: l2 →
       strings.Index item sep = Some i →
       (∀ item', item' ∈ l2 → keyOf item' sep ≠ Some (strings.take i item)) →
       item = strings.take i item +:+ sep
                +:+ strings.drop (i + String.length sep) item ∧
       m !! strings.take i item = Some (strings.drop (i + String.length sep) item)).
Proof.
  assert (ParseInfoIntoMap str del sep
          = parseItems (strings.Split str del) sep ∅) as Hparse.
  { unfold ParseInfoIntoMap. destruct (decide (str = "")) as [->|]; [|reflexivity].
    unfold strings.Split. destruct (decide (del = "")); reflexivity. }
  split; [reflexivity|].
  split; [rewrite Hparse; apply parseItems_filter|].
  intros Hsep. split.
  - unfold errorIffItemWithoutSeparator. rewrite Hparse.
    apply parseItems_err, Hsep.
  - intros m Hm. rewrite Hparse in Hm.
    apply parseItems_ok in Hm; [|exact Hsep].
    split; [exact Hm|].
    intros l1 item l2 i Hl Hi Hlast. split.
    + apply Index_decomp, Hi.
    + rewrite Hm, Hl. apply foldl_assign_last; [|exact Hlast].
      unfold cutFirst. rewrite Hi. reflexivity.
Qed.

(** The theorem on an input with an empty item, a value that
    contains the separator and a key that comes twice. *)
Lemma ParseInfoIntoMap_spec_witness :
  "=" ≠ "" ∧
  ∃ m, ParseInfoIntoMap "a=1;;b=x=y;a=2" ";" "=" = Ok m ∧ m !! "b" = Some "x=y".
Proof.
  split; [discriminate|].
  destruct (ParseInfoIntoMap_spec "a=1;;b=x=y;a=2" ";" "=") as (_ & _ & H).
  destruct (H ltac:(discriminate)) as [_ Hm].
  eexists. split; [vm_compute; reflexivity|].
  refine (proj2 (proj2 (Hm _ _) ["a=1"] "b=x=y" ["a=2"] 1%nat _ _ _)).
  - vm_compute; reflexivity.
  - reflexivity.
  - reflexivity.
  - intros item' Hin. apply list_elem_of_singleton in Hin as ->. discriminate.
Defined.

(** ** Facts about runs *)

Section run_facts.
Context {A B : Type}.

Lemma bind_call (ev : Event) (a : A) (k : A → Go B) :
  (call ev a ≫= k) = ((k a).1, ev :: (k a).2).
Proof. unfold mbind, Go_bind, call. destruct (k a). reflexivity. Qed.

Lemma bind_ret (a : A) (k : A → Go B) : (mret a ≫= k) = k a.
Proof. unfold mbind, Go_bind, mret, Go_ret. destruct (k a). reflexivity. Qed.

Lemma bind_Returns (a : A) (t : list Event) (k : A → Go B) :
  ((Returns a, t) ≫= k) = ((k a).1, t ++ (k a).2).
Proof. unfold mbind, Go_bind. destruct (k a). reflexivity. Qed.

Lemma bind_Returns_nil (a : A) (k : A → Go B) : ((Returns a, []) ≫= k) = k a.
Proof. unfold mbind, Go_bind. destruct (k a). reflexivity. Qed.

Lemma bind_Panics (t : list Event) (k : A → Go B) :
  ((Panics, t) ≫= k) = (Panics, t).
Proof. reflexivity. Qed.

End run_facts.

Lemma pair_eta {A B} (p : A * B) : (p.1, p.2) = p.
Proof. destruct p; reflexivity. Qed.

Lemma bind_assoc {A B C} (m : Go A) (f : A → Go B) (g : B → Go C) :
  (m ≫= f) ≫= g = m ≫= (λ x, f x ≫= g).
Proof.
  destruct m as [[a|] t]; unfold mbind, Go_bind; [|reflexivity].
  destruct (f a) as [[b|] t1]; [|reflexivity].
  destruct (g b) as [o t2]. rewrite app_assoc. reflexivity.
Qed.

Lemma bind_prefix {A B} (m : Go A) (t : list Event) (k : A → Go B) :
  ((m.1, t ++ m.2) ≫= k) = ((m ≫= k).1, t ++ (m ≫= k).2).
Proof.
  destruct m as [[a|] t']; unfold mbind, Go_bind; cbn [fst snd]; [|reflexivity].
  destruct (k a) as [o t'']. cbn [fst snd]. rewrite app_assoc. reflexivity.
Qed.

Lemma trace_bind {A B} (m : Go A) (k : A → Go B) :
  trace (m ≫= k) =
  match outcome m with
  | Returns a => trace m ++ trace (k a)
  | Panics => trace m
  end.
Proof.
  destruct m as [[a|] t]; unfold mbind, Go_bind, trace, outcome; cbn; [|reflexivity].
  destruct (k a); reflexivity.
Qed.

(** Read the second component of a run as its trace. *)
Ltac fold_trace :=
  cbv beta iota;
  repeat match goal with
         | |- context [snd ?m] => progress change (snd m) with (trace m)
         end.

(** ** waitForClusterStability *)

Section stability_facts.
Variable w : World.
Variable allHostConns : list HostConn.

Lemma stabilityLoop_step n idx b :
  stabilityLoop w allHostConns (S n) idx b =
  match IsClusterAndStable w idx allHostConns with
  | Err err => (Returns (Return (reconcileError err)), attempt allHostConns)
  | Ok true => (Returns (Fallthrough b), attempt allHostConns)
  | Ok false =>
    ((stabilityLoop w allHostConns n (idx + 1) b).1,
     attempt allHostConns ++ (stabilityLoop w allHostConns n (idx + 1) b).2)
  end.
Proof.
  cbn [stabilityLoop]. rewrite !bind_call.
  destruct (IsClusterAndStable w idx allHostConns) as [[|]|e]; reflexivity.
Qed.

(** While the poll answers "not stable", the loop goes on. *)
Lemma stabilityLoop_unstable k n idx b :
  (∀ i, idx <= i < idx + Z.of_nat k →
        IsClusterAndStable w i allHostConns = Ok false) →
  stabilityLoop w allHostConns (k + n) idx b =
  ((stabilityLoop w allHostConns n (idx + Z.of_nat k) b).1,
   attempts allHostConns k ++ (stabilityLoop w allHostConns n (idx + Z.of_nat k) b).2).
Proof.
  revert idx; induction k as [|k IH]; intros idx H.
  - simpl. rewrite Z.add_0_r. symmetry. apply pair_eta.
  - replace (S k + n)%nat with (S (k + n)) by lia.
    rewrite stabilityLoop_step, H by lia.
    rewrite IH by (intros; apply H; lia).
    replace (idx + 1 + Z.of_nat k) with (idx + Z.of_nat (S k)) by lia.
    cbn [fst snd attempts]. rewrite <- app_assoc. reflexivity.
Qed.

(** The loop never assigns the variable declared before it. *)
Lemma stabilityLoop_exit n idx b :
  match outcome (stabilityLoop w allHostConns n idx b) with
  | Returns (Fallthrough b') => b' = b
  | Returns (Return res) => ∃ err, res = reconcileError err
  | Panics => False
  end.
Proof.
  revert idx; induction n as [|n IH]; intros idx; [reflexivity|].
  rewrite stabilityLoop_step.
  destruct (IsClusterAndStable w idx allHostConns) as [[|]|e]; cbn.
  - reflexivity.
  - apply IH.
  - eauto.
Qed.

Lemma waitForClusterStability_never_succeeds :
  outcome (waitForClusterStability w allHostConns) ≠ Returns reconcileSuccess.
Proof.
  unfold waitForClusterStability.
  pose proof (stabilityLoop_exit (Z.to_nat (maxRetry + 1 - 1)) 1 false) as H.
  unfold outcome in *.
  destruct (stabilityLoop w allHostConns (Z.to_nat (maxRetry + 1 - 1)) 1 false)
    as [[[res|b]|] t]; cbn in *.
  - destruct H as [err ->]. discriminate.
  - subst b. discriminate.
  - discriminate.
Qed.

Lemma waitForClusterStability_fallthrough t :
  stabilityLoop w allHostConns (Z.to_nat (maxRetry + 1 - 1)) 1 false
    = (Returns (Fallthrough false), t) →
  waitForClusterStability w allHostConns = (Returns (reconcileRequeueAfter 60), t).
Proof.
  intros H. unfold waitForClusterStability. rewrite H, bind_Returns.
  cbn. rewrite app_nil_r. reflexivity.
Qed.

Lemma attempts_snoc n : attempts allHostConns (S n) = attempts allHostConns n ++ attempt allHostConns.
Proof.
  induction n as [|n IH]; [reflexivity|].
  change (attempt allHostConns ++ attempts allHostConns (S n) =
          (attempt allHostConns ++ attempts allHostConns n) ++ attempt allHostConns).
  rewrite IH, app_assoc. reflexivity.
Qed.

Lemma polls_attempts n : polls (attempts allHostConns n) = n.
Proof. induction n as [|n IH]; [reflexivity|]. unfold polls in *. cbn. f_equal. exact IH. Qed.

Lemma totalSlept_attempts n : totalSlept (attempts allHostConns n) = Z.of_nat n * retryInterval.
Proof.
  induction n as [|n IH]; [reflexivity|].
  change (totalSlept (attempts allHostConns (S n))) with (retryInterval + (0 + totalSlept (attempts allHostConns n))).
  rewrite IH. lia.
Qed.

End stability_facts.

(** ** Connections and the topology snapshot *)

Section topology_facts.
Variable w : World.

(** Building a connection calls nobody; it returns a connection or stops
    on the nil service port. *)
Lemma newAsConn_cases pod :
  newAsConn w pod = (Panics, []) ∨ ∃ asConn, newAsConn w pod = (Returns (Ok asConn), []).
Proof.
  unfold newAsConn. destruct (GetServiceTLSNameAndPort w) as [tlsName port].
  destruct (if bool_decide (tlsName = "") || bool_decide (port = None)
            then GetServicePort w else port) as [p|]; cbn; eauto.
Qed.

Lemma newHostConn_cases pod :
  newHostConn w pod = (Panics, []) ∨
  ∃ hostConn, newHostConn w pod = (Returns (Ok hostConn), []).
Proof.
  unfold newHostConn.
  destruct (newAsConn_cases pod) as [-> | [asConn ->]]; [left; reflexivity|].
  right. eexists. reflexivity.
Qed.

Lemma hostConnLoop_trace ignorablePods items hostConns :
  trace (hostConnLoop w ignorablePods items hostConns) = [].
Proof.
  revert hostConns; induction items as [|pod items IH]; intros hostConns; [reflexivity|].
  cbn [hostConnLoop]. destruct (IsPodTerminating w pod); [apply IH|].
  destruct (IsPodRunningAndReady w pod); cbn [negb].
  - destruct (newHostConn_cases pod) as [-> | [h ->]]; [reflexivity|].
    rewrite bind_Returns. cbn [trace snd]. apply IH.
  - destruct (GetPod (Name pod) ignorablePods); [apply IH | reflexivity].
Qed.

Lemma skipped_blocking ignorablePods pod :
  skipped w ignorablePods pod = false → blocking w ignorablePods pod = false →
  IsPodTerminating w pod = false ∧ IsPodRunningAndReady w pod = true.
Proof.
  unfold skipped, blocking.
  destruct (IsPodTerminating w pod), (IsPodRunningAndReady w pod),
    (GetPod (Name pod) ignorablePods) eqn:E; cbn; try tauto; try discriminate.
  all: rewrite ?bool_decide_eq_false; intros H1 H2; exfalso.
  all: first [apply H1; eauto; fail | apply H2; reflexivity].
Qed.

(** Without a blocking pod the loop appends the connections of the pods
    it does not pass over, in their order. *)
Lemma hostConnLoop_ok ignorablePods items hostConns conns :
  (∀ pod, pod ∈ items → blocking w ignorablePods pod = false) →
  Forall2 (λ pod hostConn, newHostConn w pod = (Returns (Ok hostConn), []))
          (List.filter (λ pod, negb (skipped w ignorablePods pod)) items) conns →
  hostConnLoop w ignorablePods items hostConns = (Returns (Ok (hostConns ++ conns)), []).
Proof.
  revert hostConns conns; induction items as [|pod items IH]; intros hostConns conns Hb Hc.
  - inversion Hc; subst. cbn. rewrite app_nil_r. reflexivity.
  - assert (∀ p, p ∈ items → blocking w ignorablePods p = false) as Hb'
      by (intros p Hp; apply Hb; right; exact Hp).
    cbn [List.filter] in Hc.
    destruct (skipped w ignorablePods pod) eqn:Hs; cbn [negb] in Hc.
    + specialize (IH hostConns conns Hb' Hc). cbn [hostConnLoop].
      unfold skipped in Hs.
      destruct (IsPodTerminating w pod); [exact IH|].
      destruct (IsPodRunningAndReady w pod); [discriminate|]. cbn in Hs |- *.
      apply bool_decide_eq_true in Hs as [q ->]. exact IH.
    + destruct (skipped_blocking _ _ Hs (Hb pod ltac:(left))) as [Ht Hr].
      inversion Hc as [|? h ? conns' Hh Hrest]; subst.
      cbn [hostConnLoop]. rewrite Ht, Hr. cbn [negb]. rewrite Hh, bind_Returns.
      rewrite (IH (hostConns ++ [h]) conns' Hb' Hrest), <- app_assoc. reflexivity.
Qed.

(** The first blocking pod fails the loop, whatever follows it. *)
Lemma hostConnLoop_blocked ignorablePods pre pod post hostConns :
  (∀ p, p ∈ pre → blocking w ignorablePods p = false) →
  (∀ p, p ∈ pre → skipped w ignorablePods p = false →
        ∃ hostConn, newHostConn w p = (Returns (Ok hostConn), [])) →
  blocking w ignorablePods pod = true →
  hostConnLoop w ignorablePods (pre ++ pod :: post) hostConns
    = (Returns (Err ("pod " +:+ Name pod +:+ " is not ready")), []).
Proof.
  intros Hb Hc Hpod. revert hostConns; induction pre as [|p pre IH]; intros hostConns.
  - cbn [app hostConnLoop]. unfold blocking in Hpod.
    destruct (IsPodTerminating w pod); [discriminate|].
    destruct (IsPodRunningAndReady w pod); [discriminate|]. cbn in Hpod |- *.
    apply bool_decide_eq_true in Hpod as ->. reflexivity.
  - assert (∀ q, q ∈ pre → blocking w ignorablePods q = false) as Hb'
      by (intros q Hq; apply Hb; right; exact Hq).
    assert (∀ q, q ∈ pre → skipped w ignorablePods q = false →
                 ∃ hostConn, newHostConn w q = (Returns (Ok hostConn), [])) as Hc'
      by (intros q Hq; apply Hc; right; exact Hq).
    specialize (IH Hb' Hc').
    change ((p :: pre) ++ pod :: post) with (p :: (pre ++ pod :: post)).
    cbn [hostConnLoop].
    destruct (skipped w ignorablePods p) eqn:Hs.
    + unfold skipped in Hs.
      destruct (IsPodTerminating w p); [apply IH|].
      destruct (IsPodRunningAndReady w p); [discriminate|]. cbn in Hs |- *.
      apply bool_decide_eq_true in Hs as [q ->]. apply IH.
    + destruct (skipped_blocking _ _ Hs (Hb p ltac:(left))) as [Ht Hr].
      destruct (Hc p ltac:(left) Hs) as [h Hh].
      rewrite Ht, Hr. cbn [negb]. rewrite Hh, bind_Returns, IH. reflexivity.
Qed.

Lemma newAllHostConnWithOption_items ignorablePods items :
  getClusterPodList w = Ok items → items ≠ [] →
  newAllHostConnWithOption w ignorablePods =
  ((hostConnLoop w ignorablePods items []).1, [CallGetClusterPodList]).
Proof.
  intros Hl Hne. unfold newAllHostConnWithOption. rewrite bind_call, Hl.
  rewrite bool_decide_eq_false_2 by (destruct items; [congruence | discriminate]).
  pose proof (hostConnLoop_trace ignorablePods items []) as Ht. unfold trace in Ht.
  rewrite Ht. reflexivity.
Qed.

Lemma newAllHostConnWithOption_trace ignorablePods :
  trace (newAllHostConnWithOption w ignorablePods) = [CallGetClusterPodList].
Proof.
  unfold newAllHostConnWithOption. rewrite bind_call. cbn [trace snd].
  destruct (getClusterPodList w) as [items|err]; [|reflexivity].
  destruct (bool_decide (length items = 0%nat)); [reflexivity|].
  pose proof (hostConnLoop_trace ignorablePods items []) as Ht. unfold trace in Ht.
  rewrite Ht. reflexivity.
Qed.

End topology_facts.

(** ** The drain-scope decision *)

Section scope_facts.
Variable w : World.

Lemma selectDrainScope_cons hostConn ns namespaces :
  selectDrainScope w hostConn (ns :: namespaces) =
  match isNamespaceSCEnabled w hostConn ns with
  | Err err => (Returns (Err err), [CallIsNamespaceSCEnabled hostConn ns])
  | Ok false => (Returns (Ok (Some ns)), [CallIsNamespaceSCEnabled hostConn ns])
  | Ok true =>
    match isNodeInRoster w hostConn ns with
    | Err err => (Returns (Err err), queries hostConn ns)
    | Ok true => (Returns (Ok (Some ns)), queries hostConn ns)
    | Ok false =>
      ((selectDrainScope w hostConn namespaces).1,
       queries hostConn ns ++ (selectDrainScope w hostConn namespaces).2)
    end
  end.
Proof.
  cbn [selectDrainScope]. rewrite bind_call.
  destruct (isNamespaceSCEnabled w hostConn ns) as [[|]|err]; cbn [negb]; try reflexivity.
  rewrite bind_call.
  destruct (isNodeInRoster w hostConn ns) as [[|]|err]; reflexivity.
Qed.

Lemma scopeLoop_cons pod ignorablePods hostConn ns namespaces :
  scopeLoop w pod ignorablePods hostConn (ns :: namespaces) =
  match isNamespaceSCEnabled w hostConn ns with
  | Err err => (Returns (reconcileError err), [CallIsNamespaceSCEnabled hostConn ns])
  | Ok false =>
    ((waitForNodeSafeStopReadyAndQuiesce w pod ignorablePods ns).1,
     [CallIsNamespaceSCEnabled hostConn ns]
       ++ (waitForNodeSafeStopReadyAndQuiesce w pod ignorablePods ns).2)
  | Ok true =>
    match isNodeInRoster w hostConn ns with
    | Err err => (Returns (reconcileError err), queries hostConn ns)
    | Ok true =>
      ((waitForNodeSafeStopReadyAndQuiesce w pod ignorablePods ns).1,
       queries hostConn ns
         ++ (waitForNodeSafeStopReadyAndQuiesce w pod ignorablePods ns).2)
    | Ok false =>
      ((scopeLoop w pod ignorablePods hostConn namespaces).1,
       queries hostConn ns ++ (scopeLoop w pod ignorablePods hostConn namespaces).2)
    end
  end.
Proof.
  cbn [scopeLoop]. rewrite bind_call.
  destruct (isNamespaceSCEnabled w hostConn ns) as [[|]|err]; cbn [negb]; try reflexivity.
  rewrite bind_call.
  destruct (isNodeInRoster w hostConn ns) as [[|]|err]; reflexivity.
Qed.

(** The loop of [waitForNodeSafeStopReady] is the decision followed by
    what the function does with it. *)
Lemma scopeLoop_selectDrainScope pod ignorablePods hostConn namespaces :
  scopeLoop w pod ignorablePods hostConn namespaces =
  selectDrainScope w hostConn namespaces ≫= afterScope w pod ignorablePods.
Proof.
  induction namespaces as [|ns namespaces IH].
  - cbn [scopeLoop selectDrainScope]. rewrite bind_ret. reflexivity.
  - rewrite scopeLoop_cons, selectDrainScope_cons.
    destruct (isNamespaceSCEnabled w hostConn ns) as [[|]|err];
      [destruct (isNodeInRoster w hostConn ns) as [[|]|err]| |];
      rewrite ?bind_prefix, ?bind_Returns, ?IH; reflexivity.
Qed.

(** Namespaces that are strong-consistency without the node in the roster
    are passed, each at the cost of its two queries. *)
Lemma selectDrainScope_pass hostConn pre rest :
  (∀ n, n ∈ pre → isNamespaceSCEnabled w hostConn n = Ok true ∧
                   isNodeInRoster w hostConn n = Ok false) →
  selectDrainScope w hostConn (pre ++ rest) =
  ((selectDrainScope w hostConn rest).1,
   flat_map (queries hostConn) pre ++ (selectDrainScope w hostConn rest).2).
Proof.
  induction pre as [|n pre IH]; intros H.
  - symmetry. apply pair_eta.
  - change ((n :: pre) ++ rest) with (n :: (pre ++ rest)).
    rewrite selectDrainScope_cons.
    destruct (H n ltac:(left)) as [-> ->].
    rewrite IH by (intros; apply H; right; assumption).
    cbn [fst snd flat_map]. rewrite <- app_assoc. reflexivity.
Qed.

Lemma selectDrainScope_none hostConn namespaces :
  (∀ n, n ∈ namespaces → isNamespaceSCEnabled w hostConn n = Ok true ∧
                          isNodeInRoster w hostConn n = Ok false) →
  selectDrainScope w hostConn namespaces =
  (Returns (Ok None), flat_map (queries hostConn) namespaces).
Proof.
  intros H. rewrite <- (app_nil_r namespaces) at 1.
  rewrite (selectDrainScope_pass hostConn namespaces [] H).
  cbn [selectDrainScope mret Go_ret fst snd]. rewrite app_nil_r. reflexivity.
Qed.

Lemma queries_notQuiesce hostConn namespaces :
  Forall (λ ev, isCallInfoQuiesce ev = false) (flat_map (queries hostConn) namespaces).
Proof. induction namespaces; cbn; repeat constructor. assumption. Qed.

(** The roster-safety of the decision. *)
Lemma selectDrainScope_roster hostConn namespaces ns t :
  selectDrainScope w hostConn namespaces = (Returns (Ok (Some ns)), t) →
  isNamespaceSCEnabled w hostConn ns = Ok true →
  isNodeInRoster w hostConn ns = Ok true.
Proof.
  revert t; induction namespaces as [|n namespaces IH]; intros t Hsel Hsc.
  - discriminate.
  - rewrite selectDrainScope_cons in Hsel.
    destruct (isNamespaceSCEnabled w hostConn n) as [[|]|err] eqn:Hn.
    + destruct (isNodeInRoster w hostConn n) as [[|]|err] eqn:Hr.
      * congruence.
      * destruct (selectDrainScope w hostConn namespaces) as [o t'].
        cbn in Hsel. eapply IH; [|exact Hsc]. f_equal. congruence.
      * discriminate.
    + congruence.
    + discriminate.
Qed.

Lemma stabilityLoop_trace allHostConns n idx b :
  Forall (λ ev, isCallInfoQuiesce ev = false)
         (trace (stabilityLoop w allHostConns n idx b)).
Proof.
  revert idx; induction n as [|n IH]; intros idx; [constructor|].
  rewrite stabilityLoop_step.
  destruct (IsClusterAndStable w idx allHostConns) as [[|]|err]; cbn [trace snd].
  - repeat constructor.
  - apply Forall_app. split; [repeat constructor | apply IH].
  - repeat constructor.
Qed.

Lemma waitForClusterStability_trace allHostConns :
  Forall (λ ev, isCallInfoQuiesce ev = false)
         (trace (waitForClusterStability w allHostConns)).
Proof.
  unfold waitForClusterStability. rewrite trace_bind.
  pose proof (stabilityLoop_trace allHostConns (Z.to_nat (maxRetry + 1 - 1)) 1 false) as H.
  destruct (outcome _) as [[res|b]|]; [| |exact H].
  - cbn. rewrite app_nil_r. exact H.
  - destruct b; cbn; rewrite app_nil_r; exact H.
Qed.

Lemma Forall_notQuiesce (P : Event → Prop) t :
  (∀ ev, isCallInfoQuiesce ev = false → P ev) →
  Forall (λ ev, isCallInfoQuiesce ev = false) t → Forall P t.
Proof. intros HP H. eapply Forall_impl; [exact H | exact HP]. Qed.

(** Whatever quiesce call [waitForNodeSafeStopReadyAndQuiesce] issues is
    for the namespace it was given. *)
Lemma quiesce_scope pod ignorablePods ns :
  Forall (quiesceFor ns)
         (trace (waitForNodeSafeStopReadyAndQuiesce w pod ignorablePods ns)).
Proof.
  assert (∀ ev, isCallInfoQuiesce ev = false → quiesceFor ns ev) as Hnot
    by (intros []; cbn; try discriminate; trivial).
  unfold waitForNodeSafeStopReadyAndQuiesce.
  rewrite bind_call. cbn [trace snd]. constructor; [exact I|].
  destruct (waitForAllSTSToBeReady w); [constructor|].
  fold_trace. rewrite trace_bind, newAllHostConnWithOption_trace.
  destruct (outcome (newAllHostConnWithOption w ignorablePods)) as [[conns|err]|];
    [| repeat constructor..].
  constructor; [exact I|]. cbn [app].
  rewrite trace_bind.
  pose proof (Forall_notQuiesce _ _ Hnot (waitForClusterStability_trace conns)) as Hst.
  destruct (outcome (waitForClusterStability w conns)) as [res|]; [|exact Hst].
  apply Forall_app. split; [exact Hst|].
  destruct (negb (isSuccess res)); [constructor|].
  destruct (newHostConn_cases w pod) as [-> | [h ->]]; [constructor|].
  rewrite bind_Returns_nil, bind_call. cbn [trace snd].
  constructor; [reflexivity|].
  destruct (InfoQuiesce w conns h ns); constructor.
Qed.

(** As the stability monitor stands it never returns success, so no run
    gets as far as the quiesce call. *)
Lemma InfoQuiesce_unreachable pod ignorablePods ns :
  Forall (λ ev, isCallInfoQuiesce ev = false)
         (trace (waitForNodeSafeStopReadyAndQuiesce w pod ignorablePods ns)).
Proof.
  unfold waitForNodeSafeStopReadyAndQuiesce.
  rewrite bind_call. cbn [trace snd]. constructor; [reflexivity|].
  destruct (waitForAllSTSToBeReady w); [constructor|].
  fold_trace. rewrite trace_bind, newAllHostConnWithOption_trace.
  destruct (outcome (newAllHostConnWithOption w ignorablePods)) as [[conns|err]|];
    [| repeat constructor..].
  constructor; [reflexivity|]. cbn [app].
  rewrite trace_bind.
  pose proof (waitForClusterStability_trace conns) as Hst.
  pose proof (waitForClusterStability_never_succeeds w conns) as Hnever.
  destruct (outcome (waitForClusterStability w conns)) as [res|]; [|exact Hst].
  apply Forall_app. split; [exact Hst|].
  destruct res; [congruence | constructor | constructor].
Qed.

Lemma scopeLoop_rosterSafe pod ignorablePods hostConn namespaces :
  Forall (rosterSafe w hostConn) (trace (scopeLoop w pod ignorablePods hostConn namespaces)).
Proof.
  induction namespaces as [|ns namespaces IH]; [constructor|].
  cbn [scopeLoop]. rewrite bind_call. cbn [trace snd]. constructor; [exact I|].
  assert (∀ Hsafe : (isNamespaceSCEnabled w hostConn ns = Ok true →
                     isNodeInRoster w hostConn ns = Ok true),
            Forall (rosterSafe w hostConn)
              (trace (waitForNodeSafeStopReadyAndQuiesce w pod ignorablePods ns))) as Hq.
  { intros Hsafe. eapply Forall_impl; [apply quiesce_scope|].
    intros [] Hev; cbn in *; trivial. subst. exact Hsafe. }
  destruct (isNamespaceSCEnabled w hostConn ns) as [[|]|err] eqn:Hsc; cbn [negb].
  - rewrite bind_call. cbn [snd]. constructor; [exact I|].
    destruct (isNodeInRoster w hostConn ns) as [[|]|err] eqn:Hr.
    + apply Hq. reflexivity.
    + exact IH.
    + constructor.
  - apply Hq. discriminate.
  - constructor.
Qed.

Lemma waitForNodeSafeStopReady_scopeLoop pod ignorablePods hostConn :
  newHostConn w pod = (Returns (Ok hostConn), []) →
  waitForNodeSafeStopReady w pod ignorablePods =
  match getNamespaces w hostConn with
  | Err err => (Returns (reconcileError err), [CallGetNamespaces hostConn])
  | Ok namespaces =>
    ((scopeLoop w pod ignorablePods hostConn namespaces).1,
     CallGetNamespaces hostConn :: (scopeLoop w pod ignorablePods hostConn namespaces).2)
  end.
Proof.
  intros Hconn. unfold waitForNodeSafeStopReady.
  rewrite Hconn, bind_Returns_nil, bind_call.
  destruct (getNamespaces w hostConn); reflexivity.
Qed.

End scope_facts.

(** ** The stability monitor: claims *)

(** C4.  When no poll of the twelve attempts reports the cluster stable and
    none fails, [waitForClusterStability] polls exactly [maxRetry] = 12
    times, waits [retryInterval] = 10 s before each poll (120 s in all)
    and then returns [reconcileRequeueAfter 60]. *)
Theorem stability_retry_bound (w : World) (allHostConns : list HostConn) :
  (∀ idx, 1 <= idx <= maxRetry → IsClusterAndStable w idx allHostConns = Ok false) →
  let run := waitForClusterStability w allHostConns in
  outcome run = Returns (reconcileRequeueAfter 60) ∧
  trace run = attempts allHostConns 12 ∧
  attempt allHostConns = [Sleep (10 * Second); CallIsClusterAndStable allHostConns] ∧
  polls (trace run) = Z.to_nat maxRetry ∧
  totalSlept (trace run) = 120 * Second.
Proof.
  intros H run.
  assert (run = (Returns (reconcileRequeueAfter 60), attempts allHostConns 12)) as ->.
  { apply waitForClusterStability_fallthrough.
    change (Z.to_nat (maxRetry + 1 - 1)) with (12 + 0)%nat.
    rewrite stabilityLoop_unstable by (intros; apply H; unfold maxRetry; lia).
    cbn [stabilityLoop mret Go_ret fst snd]. rewrite app_nil_r. reflexivity. }
  cbn [outcome trace fst snd].
  split; [reflexivity|]. split; [reflexivity|]. split; [reflexivity|].
  split; [apply polls_attempts | rewrite totalSlept_attempts; reflexivity].
Qed.

(** The theorem on a cluster that is never stable. *)
Lemma stability_retry_bound_witness :
  (∀ idx, 1 <= idx <= maxRetry →
          IsClusterAndStable neverStableWorld idx [connOfA] = Ok false) ∧
  outcome (waitForClusterStability neverStableWorld [connOfA])
    = Returns (reconcileRequeueAfter 60) ∧
  polls (trace (waitForClusterStability neverStableWorld [connOfA])) = 12%nat.
Proof.
  assert (∀ idx, 1 <= idx <= maxRetry →
                 IsClusterAndStable neverStableWorld idx [connOfA] = Ok false)
    as H by (intros; reflexivity).
  split; [exact H|].
  destruct (stability_retry_bound neverStableWorld [connOfA] H) as (Ho & _ & _ & Hp & _).
  split; [exact Ho | exact Hp].
Defined.

(** C2 (the code departs from the claim).  When the poll first reports the
    cluster stable at attempt [k <= maxRetry], the loop does stop after
    [k] attempts, but the function returns [reconcileRequeueAfter 60], not
    success: the loop's own [isStable] hides the one tested after it. *)
Theorem stable_at_attempt_requeues (w : World) (allHostConns : list HostConn) (k : Z) :
  1 <= k <= maxRetry →
  (∀ i, 1 <= i < k → IsClusterAndStable w i allHostConns = Ok false) →
  IsClusterAndStable w k allHostConns = Ok true →
  waitForClusterStability w allHostConns =
    (Returns (reconcileRequeueAfter 60), attempts allHostConns (Z.to_nat k)).
Proof.
  intros Hk Hbefore Hat. apply waitForClusterStability_fallthrough.
  replace (Z.to_nat (maxRetry + 1 - 1)) with (Z.to_nat (k - 1) + S (Z.to_nat (maxRetry - k)))%nat
    by (unfold maxRetry in *; lia).
  rewrite stabilityLoop_unstable by (intros; apply Hbefore; lia).
  rewrite stabilityLoop_step.
  replace (1 + Z.of_nat (Z.to_nat (k - 1))) with k by lia.
  rewrite Hat. cbn [fst snd].
  replace (Z.to_nat k) with (S (Z.to_nat (k - 1))) by lia.
  rewrite attempts_snoc. reflexivity.
Qed.

(** The theorem on a cluster that is stable at the first
    attempt. *)
Lemma stable_at_attempt_requeues_witness :
  IsClusterAndStable (stableWorld 1) 1 [connOfA] = Ok true ∧
  waitForClusterStability (stableWorld 1) [connOfA] =
    (Returns (reconcileRequeueAfter 60),
     [Sleep retryInterval; CallIsClusterAndStable [connOfA]]).
Proof.
  split; [reflexivity|].
  apply (stable_at_attempt_requeues (stableWorld 1) [connOfA] 1).
  - unfold maxRetry; lia.
  - intros i Hi; lia.
  - reflexivity.
Defined.

(** The whole drain attempt on that cluster: the available-mode namespace
    "test" is selected, the first poll reports the cluster stable, and the
    attempt ends with a requeue and without a quiesce call. *)
Example drain_attempt_requeues :
  waitForNodeSafeStopReady (stableWorld 1) podA [] =
    (Returns (reconcileRequeueAfter 60),
     [CallGetNamespaces connOfA;
      CallIsNamespaceSCEnabled connOfA "test";
      CallWaitForAllSTSToBeReady;
      CallGetClusterPodList;
      Sleep retryInterval;
      CallIsClusterAndStable
        [connOfA;
         NewHostConn "10.0.0.2:3000"
           {| AerospikeHostName := "10.0.0.2"; AerospikePort := 3000;
              AerospikeTLSName := "" |};
         NewHostConn "10.0.0.3:3000"
           {| AerospikeHostName := "10.0.0.3"; AerospikePort := 3000;
              AerospikeTLSName := "" |}]]).
Proof. vm_compute. reflexivity. Qed.

(** C3 (the code departs from the claim).  A run in which the third
    attempt reports the cluster stable: two attempts without stability,
    then a stable one, and the outcome is [reconcileRequeueAfter 60]. *)
Theorem requeue_despite_stability :
  IsClusterAndStable (stableWorld 3) 3 [connOfA] = Ok true ∧
  outcome (waitForClusterStability (stableWorld 3) [connOfA])
    = Returns (reconcileRequeueAfter 60) ∧
  polls (trace (waitForClusterStability (stableWorld 3) [connOfA])) = 3%nat.
Proof. vm_compute. repeat split; reflexivity. Qed.

(** ** The topology snapshot: claims *)

(** C7.  On a listed, non-empty pod list [newAllHostConnWithOption] passes
    over every terminating pod and every not-running-and-ready pod found
    among the ignorable pods: without a blocking pod it returns, with no
    error, the connections of exactly the pods it does not pass over.  And
    it fails with "pod ... is not ready" and no connection set at the first
    pod that is not terminating, not running-and-ready and not ignorable,
    whatever pods follow. *)
Theorem snapshot_skips_and_fails (w : World) (ignorablePods items : list Pod) :
  getClusterPodList w = Ok items →
  items ≠ [] →
  (∀ conns,
     (∀ pod, pod ∈ items → blocking w ignorablePods pod = false) →
     Forall2 (λ pod hostConn, newHostConn w pod = (Returns (Ok hostConn), []))
             (List.filter (λ pod, negb (skipped w ignorablePods pod)) items) conns →
     newAllHostConnWithOption w ignorablePods
       = (Returns (Ok conns), [CallGetClusterPodList])) ∧
  (∀ pre pod post,
     items = pre ++ pod :: post →
     (∀ p, p ∈ pre → blocking w ignorablePods p = false) →
     (∀ p, p ∈ pre → skipped w ignorablePods p = false →
           ∃ hostConn, newHostConn w p = (Returns (Ok hostConn), [])) →
     blocking w ignorablePods pod = true →
     newAllHostConnWithOption w ignorablePods
       = (Returns (Err ("pod " +:+ Name pod +:+ " is not ready")),
          [CallGetClusterPodList])).
Proof.
  intros Hl Hne.
  rewrite (newAllHostConnWithOption_items w ignorablePods items Hl Hne).
  split.
  - intros conns Hb Hc. rewrite (hostConnLoop_ok w _ _ [] conns Hb Hc). reflexivity.
  - intros pre pod post -> Hb Hc Hpod.
    rewrite (hostConnLoop_blocked w _ _ _ _ [] Hb Hc Hpod). reflexivity.
Qed.

(** The theorem on [mixedWorld]: with [podB] ignorable only
    [podA] gets a connection; without it the snapshot fails on [podB]. *)
Lemma snapshot_skips_and_fails_witness :
  getClusterPodList mixedWorld = Ok [podA; podB; podC] ∧
  newAllHostConnWithOption mixedWorld [podB]
    = (Returns (Ok [connOfA]), [CallGetClusterPodList]) ∧
  newAllHostConnWithOption mixedWorld []
    = (Returns (Err "pod aerocluster-0-1 is not ready"), [CallGetClusterPodList]).
Proof.
  split; [reflexivity|]. split.
  - refine (proj1 (snapshot_skips_and_fails mixedWorld [podB] [podA; podB; podC]
                     eq_refl _) [connOfA] _ _).
    + discriminate.
    + intros pod Hpod. repeat (apply elem_of_cons in Hpod as [->|Hpod]); try reflexivity.
      inversion Hpod.
    + repeat constructor.
  - refine (proj2 (snapshot_skips_and_fails mixedWorld [] [podA; podB; podC]
                     eq_refl _) [podA] podB [podC] eq_refl _ _ eq_refl).
    + discriminate.
    + intros p Hp. apply list_elem_of_singleton in Hp as ->. reflexivity.
    + intros p Hp _. apply list_elem_of_singleton in Hp as ->.
      exists connOfA. reflexivity.
Defined.

(** C8 as claimed fails: the one pod of [terminatingWorld] is terminating,
    so every listed pod is passed over, and the snapshot returns the empty
    connection set with no error. *)
Lemma empty_snapshot_without_error :
  ¬ emptyTopologyIsError terminatingWorld [].
Proof.
  intros H. destruct (H [podC] eq_refl) as [err Herr].
  - intros pod Hpod. apply list_elem_of_singleton in Hpod as ->. reflexivity.
  - vm_compute in Herr. discriminate.
Qed.

(** C8, amended.  [newAllHostConnWithOption] fails with "pod list empty"
    when the listed pod list itself is empty.  When the list is not empty
    and every pod is passed over (terminating, or not running-and-ready and
    ignorable) it returns the empty connection set and no error. *)
Theorem empty_pod_list_is_error (w : World) (ignorablePods : list Pod) :
  (getClusterPodList w = Ok [] →
   newAllHostConnWithOption w ignorablePods
     = (Returns (Err "pod list empty"), [CallGetClusterPodList])) ∧
  (∀ items,
     getClusterPodList w = Ok items →
     items ≠ [] →
     (∀ pod, pod ∈ items → skipped w ignorablePods pod = true) →
     newAllHostConnWithOption w ignorablePods
       = (Returns (Ok []), [CallGetClusterPodList])).
Proof.
  split.
  - intros Hl. unfold newAllHostConnWithOption. rewrite bind_call, Hl. reflexivity.
  - intros items Hl Hne Hs.
    rewrite (newAllHostConnWithOption_items w ignorablePods items Hl Hne).
    assert (List.filter (λ pod, negb (skipped w ignorablePods pod)) items = []) as Hf.
    { clear Hl Hne. induction items as [|p items IH]; [reflexivity|].
      cbn [List.filter]. rewrite (Hs p ltac:(left)). cbn [negb].
      apply IH. intros q Hq. apply Hs. right. exact Hq. }
    rewrite (hostConnLoop_ok w ignorablePods items [] []); [reflexivity| |].
    + intros pod Hpod. specialize (Hs pod Hpod). unfold skipped in Hs. unfold blocking.
      destruct (IsPodTerminating w pod); [reflexivity|].
      destruct (IsPodRunningAndReady w pod); [discriminate|]. cbn in Hs |- *.
      apply bool_decide_eq_true in Hs as [q ->]. reflexivity.
    + rewrite Hf. constructor.
Qed.

(** The theorem on a cluster whose only pod is terminating
    and on a cluster without pods. *)
Lemma empty_pod_list_is_error_witness :
  getClusterPodList terminatingWorld = Ok [podC] ∧
  newAllHostConnWithOption terminatingWorld []
    = (Returns (Ok []), [CallGetClusterPodList]) ∧
  getClusterPodList emptyWorld = Ok [] ∧
  newAllHostConnWithOption emptyWorld []
    = (Returns (Err "pod list empty"), [CallGetClusterPodList]).
Proof.
  split; [reflexivity|]. split.
  - apply (proj2 (empty_pod_list_is_error terminatingWorld []) [podC] eq_refl).
    + discriminate.
    + intros pod Hpod. apply list_elem_of_singleton in Hpod as ->. reflexivity.
  - split; [reflexivity|].
    apply (proj1 (empty_pod_list_is_error emptyWorld []) eq_refl).
Defined.

(** ** The drain-scope decision: claims *)

(** C6.  When the connection to the pod is built, its namespaces are
    listed, each of them is strong-consistency and none has the node in
    its roster, [waitForNodeSafeStopReady] returns success after the
    listing and the two queries per namespace: there is no scope and no
    quiesce call. *)
Theorem no_scope_no_quiesce (w : World) (pod : Pod) (ignorablePods : list Pod)
    (hostConn : HostConn) (namespaces : list string) :
  newHostConn w pod = (Returns (Ok hostConn), []) →
  getNamespaces w hostConn = Ok namespaces →
  (∀ n, n ∈ namespaces → isNamespaceSCEnabled w hostConn n = Ok true ∧
                          isNodeInRoster w hostConn n = Ok false) →
  outcome (selectDrainScope w hostConn namespaces) = Returns (Ok None) ∧
  waitForNodeSafeStopReady w pod ignorablePods =
    (Returns reconcileSuccess,
     CallGetNamespaces hostConn :: flat_map (queries hostConn) namespaces) ∧
  Forall (λ ev, isCallInfoQuiesce ev = false)
         (trace (waitForNodeSafeStopReady w pod ignorablePods)).
Proof.
  intros Hconn Hns Hall.
  pose proof (selectDrainScope_none w hostConn namespaces Hall) as Hsel.
  assert (waitForNodeSafeStopReady w pod ignorablePods =
          (Returns reconcileSuccess,
           CallGetNamespaces hostConn :: flat_map (queries hostConn) namespaces)) as Hrun.
  { rewrite (waitForNodeSafeStopReady_scopeLoop w _ _ _ Hconn), Hns.
    rewrite scopeLoop_selectDrainScope, Hsel, bind_Returns.
    cbn [afterScope mret Go_ret fst snd]. rewrite app_nil_r. reflexivity. }
  split; [rewrite Hsel; reflexivity|]. split; [exact Hrun|].
  rewrite Hrun. cbn [trace snd]. constructor; [reflexivity|].
  apply queries_notQuiesce.
Qed.

(** The theorem on a cluster whose only namespace is
    strong-consistency without the node in its roster. *)
Lemma no_scope_no_quiesce_witness :
  newHostConn (clusterWorld ["foo"] (stableFrom 1)) podA = (Returns (Ok connOfA), []) ∧
  getNamespaces (clusterWorld ["foo"] (stableFrom 1)) connOfA = Ok ["foo"] ∧
  waitForNodeSafeStopReady (clusterWorld ["foo"] (stableFrom 1)) podA [] =
    (Returns reconcileSuccess,
     [CallGetNamespaces connOfA;
      CallIsNamespaceSCEnabled connOfA "foo"; CallIsNodeInRoster connOfA "foo"]).
Proof.
  split; [reflexivity|]. split; [reflexivity|].
  refine (proj1 (proj2 (no_scope_no_quiesce (clusterWorld ["foo"] (stableFrom 1))
                          podA [] connOfA ["foo"] eq_refl eq_refl _))).
  intros n Hn. apply list_elem_of_singleton in Hn as ->. split; reflexivity.
Defined.

(** ** The heartbeat tip calls: claim *)

Lemma heartbeatPorts_cases (w : World) :
  ∃ tlsName tls plain,
    GetHeartbeatTLSNameAndPort w = (tlsName, tls) ∧ GetHeartbeatPort w = plain ∧
    heartbeatPorts w = option_list tls ++ option_list plain.
Proof.
  unfold heartbeatPorts. destruct (GetHeartbeatTLSNameAndPort w) as [n tls].
  exists n, tls, (GetHeartbeatPort w). auto.
Qed.

(** The two cases of a tip function, by the ports that are configured. *)
Ltac tip_all_succeed tls plain Hok :=
  destruct tls, plain; cbn [option_list app fmap list_fmap] in *;
  rewrite ?bind_call, ?bind_ret, ?Hok by (repeat constructor); reflexivity.

Ltac tip_first_failure tls plain pre Hports Hpre Hport :=
  destruct tls, plain; cbn [option_list app] in Hports;
  destruct pre as [|? [|? pre]]; simplify_eq/=;
  rewrite ?bind_call, ?bind_ret, ?Hport, ?(Hpre _ ltac:(left)); try reflexivity;
  destruct pre; discriminate.

(** C9.  Once the connection descriptor is built, [tipHostname] and
    [tipClearHostname] issue one call per configured heartbeat port, the
    TLS port first, and a port that is not configured costs neither a call
    nor an error.  When every call succeeds the result is nil; the first
    call that fails ends the function with that very error, no call is
    repeated and none follows. *)
Theorem tip_calls (w : World) (pod clearPod : Pod) (clearPodName : string)
    (asConn : ASConn) :
  newAsConn w pod = (Returns (Ok asConn), []) →
  ((∀ port, port ∈ heartbeatPorts w →
            TipHostname w asConn (getFQDNForPod w (Name clearPod)) port = None) →
   tipHostname w pod clearPod =
     (Returns None,
      CallTipHostname asConn (getFQDNForPod w (Name clearPod)) <$> heartbeatPorts w)) ∧
  (∀ pre port post err,
     heartbeatPorts w = pre ++ port :: post →
     (∀ p, p ∈ pre →
           TipHostname w asConn (getFQDNForPod w (Name clearPod)) p = None) →
     TipHostname w asConn (getFQDNForPod w (Name clearPod)) port = Some err →
     tipHostname w pod clearPod =
       (Returns (Some err),
        CallTipHostname asConn (getFQDNForPod w (Name clearPod)) <$> (pre ++ [port]))) ∧
  ((∀ port, port ∈ heartbeatPorts w →
            TipClearHostname w asConn (getFQDNForPod w clearPodName) port = None) →
   tipClearHostname w pod clearPodName =
     (Returns None,
      CallTipClearHostname asConn (getFQDNForPod w clearPodName) <$> heartbeatPorts w)) ∧
  (∀ pre port post err,
     heartbeatPorts w = pre ++ port :: post →
     (∀ p, p ∈ pre →
           TipClearHostname w asConn (getFQDNForPod w clearPodName) p = None) →
     TipClearHostname w asConn (getFQDNForPod w clearPodName) port = Some err →
     tipClearHostname w pod clearPodName =
       (Returns (Some err),
        CallTipClearHostname asConn (getFQDNForPod w clearPodName) <$> (pre ++ [port]))).
Proof.
  intros Hconn.
  destruct (heartbeatPorts_cases w) as (n & tls & plain & Htls & Hplain & ->).
  unfold tipHostname, tipClearHostname.
  rewrite Hconn, !bind_Returns_nil, Htls, Hplain.
  repeat split.
  - intros Hok. tip_all_succeed tls plain Hok.
  - intros pre port post err Hports Hpre Hport. tip_first_failure tls plain pre Hports Hpre Hport.
  - intros Hok. tip_all_succeed tls plain Hok.
  - intros pre port post err Hports Hpre Hport. tip_first_failure tls plain pre Hports Hpre Hport.
Qed.

(** The theorem on a cluster with both heartbeat ports, all calls
    succeeding and the TLS call refused. *)
Lemma tip_calls_witness :
  newAsConn (heartbeatWorld tlsRefused) podA = (Returns (Ok asConnOfA), []) ∧
  tipHostname (heartbeatWorld (λ _, None)) podA podB =
    (Returns None,
     [CallTipHostname asConnOfA "aerocluster-0-1.aerocluster.test" 3012;
      CallTipHostname asConnOfA "aerocluster-0-1.aerocluster.test" 3002]) ∧
  tipHostname (heartbeatWorld tlsRefused) podA podB =
    (Returns (Some "tip refused"),
     [CallTipHostname asConnOfA "aerocluster-0-1.aerocluster.test" 3012]) ∧
  tipClearHostname (heartbeatWorld (λ _, None)) podA "aerocluster-0-1" =
    (Returns None,
     [CallTipClearHostname asConnOfA "aerocluster-0-1.aerocluster.test" 3012;
      CallTipClearHostname asConnOfA "aerocluster-0-1.aerocluster.test" 3002]) ∧
  tipClearHostname (heartbeatWorld tlsRefused) podA "aerocluster-0-1" =
    (Returns (Some "tip refused"),
     [CallTipClearHostname asConnOfA "aerocluster-0-1.aerocluster.test" 3012]).
Proof.
  pose proof (tip_calls (heartbeatWorld (λ _, None)) podA podB "aerocluster-0-1"
                asConnOfA eq_refl) as (Hok & _ & Hok' & _).
  pose proof (tip_calls (heartbeatWorld tlsRefused) podA podB "aerocluster-0-1"
                asConnOfA eq_refl) as (_ & Hfail & _ & Hfail').
  split; [reflexivity|]. split; [|split; [|split]].
  - apply Hok. intros port _. reflexivity.
  - apply (Hfail [] 3012 [3002] "tip refused" eq_refl); [|reflexivity].
    intros p Hp. inversion Hp.
  - apply Hok'. intros port _. reflexivity.
  - apply (Hfail' [] 3012 [3002] "tip refused" eq_refl); [|reflexivity].
    intros p Hp. inversion Hp.
Defined.

(** * Further properties of the code *)

(** ** Connection descriptors *)

Lemma newAsConn_eq (w : World) (pod : Pod) tlsName tlsPort :
  GetServiceTLSNameAndPort w = (tlsName, tlsPort) →
  newAsConn w pod =
  match (if bool_decide (tlsName = "") || bool_decide (tlsPort = None)
         then GetServicePort w else tlsPort) with
  | Some p => (Returns (Ok {| AerospikeHostName := PodIP pod;
                             AerospikePort := p;
                             AerospikeTLSName := tlsName |}), [])
  | None => (Panics, [])
  end.
Proof.
  intros H. unfold newAsConn. rewrite H.
  destruct (if bool_decide (tlsName = "") || bool_decide (tlsPort = None)
            then GetServicePort w else tlsPort); reflexivity.
Qed.

Lemma newHostConn_eq (w : World) (pod : Pod) tlsName tlsPort :
  GetServiceTLSNameAndPort w = (tlsName, tlsPort) →
  newHostConn w pod =
  match (if bool_decide (tlsName = "") || bool_decide (tlsPort = None)
         then GetServicePort w else tlsPort) with
  | Some p =>
    (Returns (Ok (NewHostConn (PodIP pod +:+ ":" +:+ pretty p)
                    {| AerospikeHostName := PodIP pod;
                       AerospikePort := p;
                       AerospikeTLSName := tlsName |})), [])
  | None => (Panics, [])
  end.
Proof.
  intros H. unfold newHostConn. rewrite (newAsConn_eq w pod _ _ H).
  destruct (if bool_decide (tlsName = "") || bool_decide (tlsPort = None)
            then GetServicePort w else tlsPort); reflexivity.
Qed.

Lemma fallback_port tlsName (tlsPort : option Z) :
  tlsName = "" ∨ tlsPort = None →
  bool_decide (tlsName = "") || bool_decide (tlsPort = None) = true.
Proof.
  intros [->| ->]; [reflexivity|].
  rewrite (bool_decide_eq_true_2 (None = None)) by reflexivity.
  apply orb_true_r.
Qed.

(** X1.  [newHostConn] (through [newAsConn]) never returns an error and
    calls nobody.  The connection is to the pod's IP; its port is the TLS
    service port when a TLS name and a TLS port are both configured, and the
    plain service port otherwise, the TLS name being kept even then; its ID
    is the IP, a colon and the port in decimal.  Without a port to fall
    back to, the run stops on the nil pointer. *)
Theorem newHostConn_descriptor (w : World) (pod : Pod) (tlsName : string)
    (tlsPort : option Z) :
  GetServiceTLSNameAndPort w = (tlsName, tlsPort) →
  (∀ err t, newHostConn w pod ≠ (Returns (Err err), t)) ∧
  trace (newHostConn w pod) = [] ∧
  (∀ p, tlsName ≠ "" → tlsPort = Some p →
     newHostConn w pod =
       (Returns (Ok (NewHostConn (PodIP pod +:+ ":" +:+ pretty p)
                       {| AerospikeHostName := PodIP pod;
                          AerospikePort := p;
                          AerospikeTLSName := tlsName |})), [])) ∧
  (∀ p, tlsName = "" ∨ tlsPort = None → GetServicePort w = Some p →
     newHostConn w pod =
       (Returns (Ok (NewHostConn (PodIP pod +:+ ":" +:+ pretty p)
                       {| AerospikeHostName := PodIP pod;
                          AerospikePort := p;
                          AerospikeTLSName := tlsName |})), [])) ∧
  (tlsName = "" ∨ tlsPort = None → GetServicePort w = None →
   newHostConn w pod = (Panics, [])).
Proof.
  intros H. rewrite (newHostConn_eq w pod _ _ H).
  split; [|split; [|split; [|split]]].
  - intros err t. destruct (if _ || _ then _ else _); discriminate.
  - destruct (if _ || _ then _ else _); reflexivity.
  - intros p Hn ->. rewrite bool_decide_eq_false_2 by exact Hn.
    rewrite bool_decide_eq_false_2 by discriminate. reflexivity.
  - intros p Hf ->. rewrite (fallback_port _ _ Hf). reflexivity.
  - intros Hf ->. rewrite (fallback_port _ _ Hf). reflexivity.
Qed.

(** The theorem on a cluster served over TLS, on one with a TLS name but
    no TLS port, and on one without any service port. *)
Lemma newHostConn_descriptor_witness :
  newHostConn tlsWorld podA =
    (Returns (Ok (NewHostConn "10.0.0.1:4333"
                    {| AerospikeHostName := "10.0.0.1"; AerospikePort := 4333;
                       AerospikeTLSName := "aerospike-a-0.test-runner" |})), []) ∧
  newHostConn tlsNameOnlyWorld podA =
    (Returns (Ok (NewHostConn "10.0.0.1:3000"
                    {| AerospikeHostName := "10.0.0.1"; AerospikePort := 3000;
                       AerospikeTLSName := "aerospike-a-0.test-runner" |})), []) ∧
  newHostConn noPortWorld podA = (Panics, []).
Proof.
  split; [|split].
  - apply (proj1 (proj2 (proj2 (newHostConn_descriptor tlsWorld podA _ _ eq_refl)))
             4333); [discriminate | reflexivity].
  - apply (proj1 (proj2 (proj2 (proj2
             (newHostConn_descriptor tlsNameOnlyWorld podA _ _ eq_refl)))) 3000);
      [right; reflexivity | reflexivity].
  - apply (proj2 (proj2 (proj2 (proj2
             (newHostConn_descriptor noPortWorld podA _ _ eq_refl)))));
      [left; reflexivity | reflexivity].
Defined.

Lemma app_cancel_r (s1 s2 t : string) : s1 +:+ t = s2 +:+ t → s1 = s2.
Proof.
  intros H.
  assert (String.length s1 = String.length s2) as Hlen.
  { apply (f_equal String.length) in H. rewrite !length_app in H. lia. }
  revert s2 H Hlen. induction s1 as [|a s1 IH]; intros [|b s2] H Hlen;
    try discriminate; [reflexivity|].
  unfold String.app in H; simpl in H. injection H as -> H.
  f_equal. apply IH; [exact H | simpl in Hlen; lia].
Qed.

(** X2.  Within one cluster the ID of a host connection tells the pods
    apart by their IP: two connections built by [newHostConn] have the
    same ID exactly when the pods have the same IP, and then they are the
    same connection. *)
Theorem newHostConn_ID_inj (w : World) (pod1 pod2 : Pod) (h1 h2 : HostConn) :
  newHostConn w pod1 = (Returns (Ok h1), []) →
  newHostConn w pod2 = (Returns (Ok h2), []) →
  (ID h1 = ID h2 ↔ PodIP pod1 = PodIP pod2) ∧
  (ID h1 = ID h2 → h1 = h2).
Proof.
  destruct (GetServiceTLSNameAndPort w) as [tlsName tlsPort] eqn:Hcfg.
  rewrite !(newHostConn_eq w _ _ _ Hcfg).
  destruct (if _ || _ then _ else _) as [p|]; [|discriminate].
  intros [= <-] [= <-]. cbn [ID].
  assert (PodIP pod1 +:+ ":" +:+ pretty p = PodIP pod2 +:+ ":" +:+ pretty p
          → PodIP pod1 = PodIP pod2) as Hinj by apply app_cancel_r.
  split; [split|].
  - exact Hinj.
  - intros ->. reflexivity.
  - intros Heq. rewrite (Hinj Heq). reflexivity.
Qed.

(** The theorem on two pods of the sample cluster. *)
Lemma newHostConn_ID_inj_witness :
  newHostConn (stableWorld 1) podA = (Returns (Ok connOfA), []) ∧
  (ID connOfA = "10.0.0.2:3000" ↔ PodIP podA = PodIP podB).
Proof.
  split; [reflexivity|].
  exact (proj1 (newHostConn_ID_inj (stableWorld 1) podA podB connOfA _ eq_refl eq_refl)).
Defined.

(** ** The topology snapshot, read backwards *)

Lemma hostConnLoop_skip (w : World) ignorablePods pre rest hostConns :
  (∀ q, q ∈ pre → skipped w ignorablePods q = true) →
  hostConnLoop w ignorablePods (pre ++ rest) hostConns
    = hostConnLoop w ignorablePods rest hostConns.
Proof.
  induction pre as [|p pre IH]; intros Hs; [reflexivity|].
  change ((p :: pre) ++ rest) with (p :: (pre ++ rest)). cbn [hostConnLoop].
  pose proof (Hs p ltac:(left)) as Hp. unfold skipped in Hp.
  assert (hostConnLoop w ignorablePods (pre ++ rest) hostConns
          = hostConnLoop w ignorablePods rest hostConns) as IH'
    by (apply IH; intros q Hq; apply Hs; right; exact Hq).
  destruct (IsPodTerminating w p); [exact IH'|].
  destruct (IsPodRunningAndReady w p); [discriminate|]. cbn in Hp |- *.
  apply bool_decide_eq_true in Hp as [q ->]. exact IH'.
Qed.

Lemma hostConnLoop_inv (w : World) ignorablePods items hostConns conns t :
  hostConnLoop w ignorablePods items hostConns = (Returns (Ok conns), t) →
  ∃ new,
    conns = hostConns ++ new ∧
    (∀ pod, pod ∈ items → blocking w ignorablePods pod = false) ∧
    Forall2 (λ pod hostConn, newHostConn w pod = (Returns (Ok hostConn), []))
            (List.filter (λ pod, negb (skipped w ignorablePods pod)) items) new.
Proof.
  revert hostConns; induction items as [|pod items IH]; intros hostConns H.
  - injection H as <- _. exists []. rewrite app_nil_r.
    split; [reflexivity|]. split; [intros pod Hpod; inversion Hpod | constructor].
  - cbn [hostConnLoop] in H. cbn [List.filter]. unfold skipped at 1, blocking.
    destruct (IsPodTerminating w pod) eqn:Ht.
    + destruct (IH _ H) as (new & -> & Hb & Hf). exists new.
      split; [reflexivity|]. split; [|exact Hf].
      intros q Hq. apply elem_of_cons in Hq as [->|Hq]; [|apply Hb, Hq].
      rewrite Ht. reflexivity.
    + destruct (IsPodRunningAndReady w pod) eqn:Hr; cbn [negb orb andb] in H |- *.
      * destruct (newHostConn_cases w pod) as [Hp | [h Hh]];
          [rewrite Hp in H; discriminate|].
        rewrite Hh, bind_Returns_nil in H.
        destruct (IH _ H) as (new & -> & Hb & Hf). exists (h :: new).
        split; [rewrite <- app_assoc; reflexivity|]. split; [|constructor; assumption].
        intros q Hq. apply elem_of_cons in Hq as [->|Hq]; [|apply Hb, Hq].
        rewrite Ht, Hr. reflexivity.
      * destruct (GetPod (Name pod) ignorablePods) as [q|] eqn:Hg; [|discriminate].
        destruct (IH _ H) as (new & -> & Hb & Hf). exists new.
        split; [reflexivity|].
        rewrite bool_decide_eq_true_2 by eauto. cbn [negb].
        split; [|exact Hf].
        intros q' Hq. apply elem_of_cons in Hq as [->|Hq]; [|apply Hb, Hq].
        rewrite Ht, Hr, Hg. reflexivity.
Qed.

Lemma newAllHostConnWithOption_inv (w : World) ignorablePods conns t :
  newAllHostConnWithOption w ignorablePods = (Returns (Ok conns), t) →
  ∃ items,
    getClusterPodList w = Ok items ∧ items ≠ [] ∧
    hostConnLoop w ignorablePods items [] = (Returns (Ok conns), []).
Proof.
  unfold newAllHostConnWithOption. rewrite bind_call.
  destruct (getClusterPodList w) as [items|err]; [|discriminate].
  destruct items as [|pod items]; [discriminate|].
  rewrite bool_decide_eq_false_2 by discriminate.
  intros H. exists (pod :: items). split; [reflexivity|]. split; [discriminate|].
  pose proof (hostConnLoop_trace w ignorablePods (pod :: items) []) as Ht.
  unfold trace in Ht.
  destruct (hostConnLoop w ignorablePods (pod :: items) []) as [o t'].
  cbn [fst snd] in *. subst t'. congruence.
Qed.

Lemma Forall2_hosts (w : World) pods conns :
  Forall2 (λ pod hostConn, newHostConn w pod = (Returns (Ok hostConn), [])) pods conns →
  (λ h, AerospikeHostName (ASConnInfo h)) <$> conns = PodIP <$> pods.
Proof.
  induction 1 as [|pod h pods conns Hh _ IH]; [reflexivity|].
  cbn [fmap list_fmap]. f_equal; [|exact IH].
  destruct (GetServiceTLSNameAndPort w) as [tlsName tlsPort] eqn:Hcfg.
  rewrite (newHostConn_eq w pod _ _ Hcfg) in Hh.
  destruct (if _ || _ then _ else _); [|discriminate].
  injection Hh as <-. reflexivity.
Qed.

(** X3.  A snapshot that succeeds is exact: the pod list was listed and
    not empty, no pod of it is blocking (not terminating, not
    running-and-ready, not ignorable), and the connections are those of the
    pods not passed over, one each, in the order of the list and to their
    IPs; so there are never more connections than pods. *)
Theorem snapshot_success_inv (w : World) (ignorablePods : list Pod)
    (conns : list HostConn) (t : list Event) :
  newAllHostConnWithOption w ignorablePods = (Returns (Ok conns), t) →
  ∃ items,
    getClusterPodList w = Ok items ∧ items ≠ [] ∧
    (∀ pod, pod ∈ items → blocking w ignorablePods pod = false) ∧
    Forall2 (λ pod hostConn, newHostConn w pod = (Returns (Ok hostConn), []))
            (List.filter (λ pod, negb (skipped w ignorablePods pod)) items) conns ∧
    (λ h, AerospikeHostName (ASConnInfo h)) <$> conns
      = PodIP <$> List.filter (λ pod, negb (skipped w ignorablePods pod)) items ∧
    (length conns ≤ length items)%nat.
Proof.
  intros H. destruct (newAllHostConnWithOption_inv _ _ _ _ H) as (items & Hl & Hne & Hloop).
  destruct (hostConnLoop_inv _ _ _ _ _ _ Hloop) as (new & -> & Hb & Hf).
  exists items. cbn [app]. repeat split; try assumption.
  - apply (Forall2_hosts w), Hf.
  - rewrite <- (Forall2_length _ _ _ Hf). apply List.filter_length_le.
Qed.

(** The theorem on [mixedWorld] with [podB] ignorable. *)
Lemma snapshot_success_inv_witness :
  newAllHostConnWithOption mixedWorld [podB]
    = (Returns (Ok [connOfA]), [CallGetClusterPodList]) ∧
  ∃ items,
    getClusterPodList mixedWorld = Ok items ∧
    (λ h, AerospikeHostName (ASConnInfo h)) <$> [connOfA]
      = PodIP <$> List.filter (λ pod, negb (skipped mixedWorld [podB] pod)) items.
Proof.
  split; [reflexivity|].
  destruct (snapshot_success_inv mixedWorld [podB] [connOfA] _ eq_refl)
    as (items & Hl & _ & _ & _ & Hh & _).
  exists items. split; [exact Hl | exact Hh].
Defined.

(** X4.  [newAllHostConn], the snapshot without ignorable pods, succeeds
    only when every listed pod is terminating or running and ready, and
    then gives one connection per pod that is not terminating. *)
Theorem newAllHostConn_all_ready (w : World) (conns : list HostConn) (t : list Event) :
  newAllHostConn w = (Returns (Ok conns), t) →
  ∃ items,
    getClusterPodList w = Ok items ∧
    (∀ pod, pod ∈ items →
            IsPodTerminating w pod = true ∨ IsPodRunningAndReady w pod = true) ∧
    length conns = length (List.filter (λ pod, negb (IsPodTerminating w pod)) items).
Proof.
  unfold newAllHostConn. intros H.
  destruct (newAllHostConnWithOption_inv _ _ _ _ H) as (items & Hl & _ & Hloop).
  destruct (hostConnLoop_inv _ _ _ _ _ _ Hloop) as (new & -> & Hb & Hf).
  cbn [app]. exists items. split; [exact Hl|]. split.
  - intros pod Hpod. specialize (Hb pod Hpod). unfold blocking in Hb. cbn in Hb.
    destruct (IsPodTerminating w pod), (IsPodRunningAndReady w pod); auto.
  - rewrite <- (Forall2_length _ _ _ Hf). f_equal.
    apply List.filter_ext. intros pod. unfold skipped. cbn.
    destruct (IsPodTerminating w pod), (IsPodRunningAndReady w pod); reflexivity.
Qed.

(** The theorem on the sample cluster of three ready pods. *)
Lemma newAllHostConn_all_ready_witness :
  (∃ conns, newAllHostConn (stableWorld 1)
              = (Returns (Ok conns), [CallGetClusterPodList]) ∧ length conns = 3%nat) ∧
  ∃ items,
    getClusterPodList (stableWorld 1) = Ok items ∧
    ∀ pod, pod ∈ items →
           IsPodTerminating (stableWorld 1) pod = true ∨
           IsPodRunningAndReady (stableWorld 1) pod = true.
Proof.
  split; [eexists; split; reflexivity|].
  destruct (newAllHostConn_all_ready (stableWorld 1) _ _ eq_refl) as (items & Hl & Hr & _).
  exists items. split; [exact Hl | exact Hr].
Defined.

(** X5.  Whatever its outcome, the snapshot makes one call, the pod
    listing: no node is contacted to build the connection descriptors.  An
    error of the listing is returned as it is. *)
Theorem snapshot_single_call (w : World) (ignorablePods : list Pod) :
  trace (newAllHostConnWithOption w ignorablePods) = [CallGetClusterPodList] ∧
  (∀ err, getClusterPodList w = Err err →
          newAllHostConnWithOption w ignorablePods
            = (Returns (Err err), [CallGetClusterPodList])).
Proof.
  split; [apply newAllHostConnWithOption_trace|].
  intros err H. unfold newAllHostConnWithOption. rewrite bind_call, H. reflexivity.
Qed.

(** The theorem on a cluster whose pods cannot be listed. *)
Lemma snapshot_single_call_witness :
  getClusterPodList (withKubernetes (Err "pods is forbidden") None (stableWorld 1))
    = Err "pods is forbidden" ∧
  newAllHostConnWithOption (withKubernetes (Err "pods is forbidden") None (stableWorld 1)) []
    = (Returns (Err "pods is forbidden"), [CallGetClusterPodList]).
Proof.
  split; [reflexivity|].
  exact (proj2 (snapshot_single_call
                  (withKubernetes (Err "pods is forbidden") None (stableWorld 1)) [])
               _ eq_refl).
Defined.

(** ** The stability monitor under any poll answers *)

Section stability_more.
Variable w : World.
Variable allHostConns : list HostConn.

Lemma waitForClusterStability_return res t :
  stabilityLoop w allHostConns (Z.to_nat (maxRetry + 1 - 1)) 1 false
    = (Returns (Return res), t) →
  waitForClusterStability w allHostConns = (Returns res, t).
Proof.
  intros H. unfold waitForClusterStability. rewrite H, bind_Returns.
  cbn. rewrite app_nil_r. reflexivity.
Qed.

(** A loop of [n] iterations makes some [k <= n] attempts and is left
    either by falling through or on the error of its last poll. *)
Lemma stabilityLoop_shape n idx b :
  ∃ k, (k ≤ n)%nat ∧
    trace (stabilityLoop w allHostConns n idx b) = attempts allHostConns k ∧
    (outcome (stabilityLoop w allHostConns n idx b) = Returns (Fallthrough b) ∨
     ∃ err, (1 ≤ k)%nat ∧
       IsClusterAndStable w (idx + Z.of_nat k - 1) allHostConns = Err err ∧
       outcome (stabilityLoop w allHostConns n idx b)
         = Returns (Return (reconcileError err))).
Proof.
  revert idx; induction n as [|n IH]; intros idx.
  - exists 0%nat. split; [lia|]. split; [reflexivity | left; reflexivity].
  - rewrite stabilityLoop_step.
    destruct (IsClusterAndStable w idx allHostConns) as [[|]|err] eqn:Hp.
    + exists 1%nat. split; [lia|]. split; [reflexivity | left; reflexivity].
    + destruct (IH (idx + 1)) as (k & Hk & Ht & Ho). exists (S k).
      split; [lia|]. unfold trace, outcome in *. cbn [fst snd].
      split; [rewrite Ht; reflexivity|].
      destruct Ho as [Ho | (err & Hk1 & He & Ho)]; [left; exact Ho|].
      right. exists err. split; [lia|]. split; [|exact Ho].
      rewrite <- He. f_equal. lia.
    + exists 1%nat. split; [lia|]. split; [reflexivity|].
      right. exists err. split; [lia|]. split; [|reflexivity].
      rewrite <- Hp. f_equal. lia.
Qed.

End stability_more.

(** X6.  An error of a stability poll ends [waitForClusterStability] at
    once: when the polls before attempt [k <= maxRetry] report no
    stability and the poll of attempt [k] fails, the result is that error as
    it is, after exactly [k] attempts. *)
Theorem poll_error_stops (w : World) (allHostConns : list HostConn) (k : Z)
    (err : error) :
  1 <= k <= maxRetry →
  (∀ i, 1 <= i < k → IsClusterAndStable w i allHostConns = Ok false) →
  IsClusterAndStable w k allHostConns = Err err →
  waitForClusterStability w allHostConns =
    (Returns (reconcileError err), attempts allHostConns (Z.to_nat k)).
Proof.
  intros Hk Hbefore Hat. apply waitForClusterStability_return.
  replace (Z.to_nat (maxRetry + 1 - 1))
    with (Z.to_nat (k - 1) + S (Z.to_nat (maxRetry - k)))%nat
    by (unfold maxRetry in *; lia).
  rewrite stabilityLoop_unstable by (intros; apply Hbefore; lia).
  rewrite stabilityLoop_step.
  replace (1 + Z.of_nat (Z.to_nat (k - 1))) with k by lia.
  rewrite Hat. cbn [fst snd].
  replace (Z.to_nat k) with (S (Z.to_nat (k - 1))) by lia.
  rewrite attempts_snoc. reflexivity.
Qed.

(** The theorem on a cluster whose second poll fails. *)
Lemma poll_error_stops_witness :
  IsClusterAndStable (clusterWorld ["test"] (failsAt 2)) 2 [connOfA]
    = Err "connection refused" ∧
  waitForClusterStability (clusterWorld ["test"] (failsAt 2)) [connOfA] =
    (Returns (reconcileError "connection refused"),
     [Sleep retryInterval; CallIsClusterAndStable [connOfA];
      Sleep retryInterval; CallIsClusterAndStable [connOfA]]).
Proof.
  split; [reflexivity|].
  apply (poll_error_stops (clusterWorld ["test"] (failsAt 2)) [connOfA] 2).
  - unfold maxRetry; lia.
  - intros i Hi. assert (i = 1) as -> by lia. reflexivity.
  - reflexivity.
Defined.

(** X7.  Whatever the polls answer, [waitForClusterStability] makes at
    most [maxRetry] = 12 attempts, each a wait of [retryInterval] followed
    by one poll, and so spends at most 120 s waiting. *)
Theorem stability_always_bounded (w : World) (allHostConns : list HostConn) :
  ∃ k, (k ≤ 12)%nat ∧
    trace (waitForClusterStability w allHostConns) = attempts allHostConns k ∧
    polls (trace (waitForClusterStability w allHostConns)) = k ∧
    totalSlept (trace (waitForClusterStability w allHostConns))
      = Z.of_nat k * retryInterval ∧
    totalSlept (trace (waitForClusterStability w allHostConns)) <= 120 * Second.
Proof.
  destruct (stabilityLoop_shape w allHostConns (Z.to_nat (maxRetry + 1 - 1)) 1 false)
    as (k & Hk & Ht & _).
  change (Z.to_nat (maxRetry + 1 - 1)) with 12%nat in Hk.
  assert (trace (waitForClusterStability w allHostConns) = attempts allHostConns k) as Htr.
  { unfold waitForClusterStability. rewrite trace_bind.
    destruct (outcome _) as [[res|b]|]; [| |exact Ht].
    - cbn. rewrite app_nil_r. exact Ht.
    - destruct b; cbn; rewrite app_nil_r; exact Ht. }
  exists k. split; [exact Hk|]. split; [exact Htr|]. rewrite Htr.
  split; [apply polls_attempts|].
  rewrite totalSlept_attempts. split; [reflexivity|].
  unfold retryInterval, Second. lia.
Qed.

(** X8.  [waitForClusterStability] has two kinds of result only: the
    error of one of its polls, or [reconcileRequeueAfter 60].  It does not
    return success and it does not panic. *)
Theorem stability_outcomes (w : World) (allHostConns : list HostConn) :
  outcome (waitForClusterStability w allHostConns)
    = Returns (reconcileRequeueAfter 60) ∨
  ∃ idx err,
    1 <= idx <= maxRetry ∧
    IsClusterAndStable w idx allHostConns = Err err ∧
    outcome (waitForClusterStability w allHostConns) = Returns (reconcileError err).
Proof.
  destruct (stabilityLoop_shape w allHostConns (Z.to_nat (maxRetry + 1 - 1)) 1 false)
    as (k & Hk & _ & Ho).
  change (Z.to_nat (maxRetry + 1 - 1)) with 12%nat in Hk.
  unfold waitForClusterStability, outcome in *.
  destruct (stabilityLoop w allHostConns (Z.to_nat (maxRetry + 1 - 1)) 1 false)
    as [o t]. cbn [fst] in Ho.
  destruct Ho as [-> | (err & Hk1 & He & ->)].
  - left. reflexivity.
  - right. exists (1 + Z.of_nat k - 1), err.
    split; [unfold maxRetry; lia|]. split; [exact He | reflexivity].
Qed.

(** ** The drain attempt: errors and what is never done *)

Lemma outcome_bind {A B} (m : Go A) (k : A → Go B) :
  outcome (m ≫= k) =
  match outcome m with
  | Returns a => outcome (k a)
  | Panics => Panics
  end.
Proof.
  destruct m as [[a|] t]; unfold mbind, Go_bind, outcome; cbn; [|reflexivity].
  destruct (k a); reflexivity.
Qed.

Lemma run_eta {A} (m : Go A) : (outcome m, trace m) = m.
Proof. destruct m; reflexivity. Qed.

(** X20.  When the wait for the stateful sets and the snapshot succeed,
    [waitForNodeSafeStopReadyAndQuiesce] calls, in this order, the wait, the
    pod listing and the stability monitor, which polls the connections of
    the snapshot; the flow ends there, with the result of the monitor. *)
Theorem quiesce_flow_polls_snapshot (w : World) (pod : Pod) (ignorablePods : list Pod)
    (ns : string) (allHostConns : list HostConn) :
  waitForAllSTSToBeReady w = None →
  outcome (newAllHostConnWithOption w ignorablePods) = Returns (Ok allHostConns) →
  waitForNodeSafeStopReadyAndQuiesce w pod ignorablePods ns =
    (outcome (waitForClusterStability w allHostConns),
     [CallWaitForAllSTSToBeReady; CallGetClusterPodList]
       ++ trace (waitForClusterStability w allHostConns)).
Proof.
  intros Hsts Hsnap.
  pose proof (newAllHostConnWithOption_trace w ignorablePods) as Ht.
  pose proof (run_eta (newAllHostConnWithOption w ignorablePods)) as Heta.
  rewrite Hsnap, Ht in Heta.
  unfold waitForNodeSafeStopReadyAndQuiesce.
  rewrite bind_call, Hsts, <- Heta, bind_Returns.
  pose proof (waitForClusterStability_never_succeeds w allHostConns) as Hnever.
  destruct (waitForClusterStability w allHostConns) as [[res|] t];
    cbn [outcome trace fst snd] in *.
  - rewrite bind_Returns.
    destruct res; [congruence | |]; cbn; rewrite app_nil_r; reflexivity.
  - reflexivity.
Qed.

(** The theorem on the sample cluster, stable at the first attempt, with
    its pod [podA] alone in the pod list. *)
Lemma quiesce_flow_polls_snapshot_witness :
  outcome (newAllHostConnWithOption
             (withKubernetes (Ok [podA]) None (stableWorld 1)) [])
    = Returns (Ok [connOfA]) ∧
  waitForNodeSafeStopReadyAndQuiesce
      (withKubernetes (Ok [podA]) None (stableWorld 1)) podA [] "test" =
    (Returns (reconcileRequeueAfter 60),
     [CallWaitForAllSTSToBeReady; CallGetClusterPodList;
      Sleep retryInterval; CallIsClusterAndStable [connOfA]]).
Proof.
  split; [reflexivity|].
  exact (quiesce_flow_polls_snapshot (withKubernetes (Ok [podA]) None (stableWorld 1))
           podA [] "test" [connOfA] eq_refl eq_refl).
Defined.

(** X9.  [waitForNodeSafeStopReadyAndQuiesce] checks in order and stops at
    the first failure.  A failed wait for the stateful sets is reported as
    "failed to wait for cluster to be ready: ..." and nothing else is
    called; after it a failed snapshot is reported as "failed to get
    hostConn for aerospike cluster nodes: ..." and the cluster is not
    polled. *)
Theorem quiesce_flow_errors (w : World) (pod : Pod) (ignorablePods : list Pod)
    (ns : string) :
  (∀ err, waitForAllSTSToBeReady w = Some err →
     waitForNodeSafeStopReadyAndQuiesce w pod ignorablePods ns =
       (Returns (reconcileError ("failed to wait for cluster to be ready: " +:+ err)),
        [CallWaitForAllSTSToBeReady])) ∧
  (∀ err, waitForAllSTSToBeReady w = None →
     outcome (newAllHostConnWithOption w ignorablePods) = Returns (Err err) →
     waitForNodeSafeStopReadyAndQuiesce w pod ignorablePods ns =
       (Returns (reconcileError
                   ("failed to get hostConn for aerospike cluster nodes: " +:+ err)),
        [CallWaitForAllSTSToBeReady; CallGetClusterPodList])).
Proof.
  split.
  - intros err H. unfold waitForNodeSafeStopReadyAndQuiesce.
    rewrite bind_call, H. reflexivity.
  - intros err Hsts Hsnap.
    pose proof (newAllHostConnWithOption_trace w ignorablePods) as Ht.
    pose proof (run_eta (newAllHostConnWithOption w ignorablePods)) as Heta.
    rewrite Hsnap, Ht in Heta.
    unfold waitForNodeSafeStopReadyAndQuiesce.
    rewrite bind_call, Hsts, <- Heta, bind_Returns. reflexivity.
Qed.

(** The theorem on a cluster whose stateful sets are not ready, and on
    [mixedWorld], whose pod [podB] is not ready. *)
Lemma quiesce_flow_errors_witness :
  waitForNodeSafeStopReadyAndQuiesce
      (withKubernetes (Ok [podA]) (Some "statefulset not ready") (stableWorld 1))
      podA [] "test" =
    (Returns (reconcileError
                "failed to wait for cluster to be ready: statefulset not ready"),
     [CallWaitForAllSTSToBeReady]) ∧
  waitForNodeSafeStopReadyAndQuiesce mixedWorld podA [] "test" =
    (Returns (reconcileError
                "failed to get hostConn for aerospike cluster nodes: pod aerocluster-0-1 is not ready"),
     [CallWaitForAllSTSToBeReady; CallGetClusterPodList]).
Proof.
  split.
  - exact (proj1 (quiesce_flow_errors
                    (withKubernetes (Ok [podA]) (Some "statefulset not ready")
                                    (stableWorld 1)) podA [] "test")
                 _ eq_refl).
  - exact (proj2 (quiesce_flow_errors mixedWorld podA [] "test")
                 "pod aerocluster-0-1 is not ready" eq_refl eq_refl).
Defined.

Lemma scopeLoop_noQuiesce (w : World) pod ignorablePods hostConn namespaces :
  noQuiesce (trace (scopeLoop w pod ignorablePods hostConn namespaces)).
Proof.
  unfold noQuiesce. induction namespaces as [|ns namespaces IH]; [constructor|].
  rewrite scopeLoop_cons. unfold queries.
  pose proof (InfoQuiesce_unreachable w pod ignorablePods ns) as Hq. unfold trace in *.
  destruct (isNamespaceSCEnabled w hostConn ns) as [[|]|err];
    [destruct (isNodeInRoster w hostConn ns) as [[|]|err]| |];
    cbn [snd app]; repeat (constructor; [reflexivity|]); try assumption; constructor.
Qed.

Lemma scopeLoop_success (w : World) pod ignorablePods hostConn namespaces :
  outcome (scopeLoop w pod ignorablePods hostConn namespaces) = Returns reconcileSuccess →
  outcome (selectDrainScope w hostConn namespaces) = Returns (Ok None).
Proof.
  rewrite scopeLoop_selectDrainScope, outcome_bind.
  destruct (outcome (selectDrainScope w hostConn namespaces)) as [[[ns|]|err]|];
    cbn [afterScope]; try discriminate; [|reflexivity].
  intros H. exfalso. revert H.
  unfold waitForNodeSafeStopReadyAndQuiesce.
  rewrite outcome_bind. cbn [outcome call fst].
  destruct (waitForAllSTSToBeReady w); [discriminate|].
  rewrite outcome_bind.
  destruct (outcome (newAllHostConnWithOption w ignorablePods)) as [[conns|err]|];
    try discriminate.
  rewrite outcome_bind.
  pose proof (waitForClusterStability_never_succeeds w conns) as Hnever.
  destruct (outcome (waitForClusterStability w conns)) as [[| |]|];
    try discriminate. congruence.
Qed.

(** X10.  As the code stands, no drain attempt quiesces a node:
    [waitForNodeSafeStopReadyAndQuiesce] never issues [InfoQuiesce] and
    never returns success, because the stability monitor before the
    quiesce call never returns success.  [waitForNodeSafeStopReady]
    therefore issues no quiesce call either, and it returns success only
    when its loop found no namespace to quiesce with. *)
Theorem quiesce_never_issued (w : World) (pod : Pod) (ignorablePods : list Pod)
    (ns : string) :
  noQuiesce (trace (waitForNodeSafeStopReadyAndQuiesce w pod ignorablePods ns)) ∧
  outcome (waitForNodeSafeStopReadyAndQuiesce w pod ignorablePods ns)
    ≠ Returns reconcileSuccess ∧
  noQuiesce (trace (waitForNodeSafeStopReady w pod ignorablePods)) ∧
  (outcome (waitForNodeSafeStopReady w pod ignorablePods) = Returns reconcileSuccess →
   ∃ hostConn namespaces,
     newHostConn w pod = (Returns (Ok hostConn), []) ∧
     getNamespaces w hostConn = Ok namespaces ∧
     outcome (selectDrainScope w hostConn namespaces) = Returns (Ok None)).
Proof.
  split; [apply InfoQuiesce_unreachable|]. split; [|split].
  - intros H.
    assert (outcome (afterScope w pod ignorablePods (Ok (Some ns)))
            = Returns reconcileSuccess) as H' by exact H.
    clear H. revert H'. cbn [afterScope].
    unfold waitForNodeSafeStopReadyAndQuiesce.
    rewrite outcome_bind. cbn [outcome call fst].
    destruct (waitForAllSTSToBeReady w); [discriminate|].
    rewrite outcome_bind.
    destruct (outcome (newAllHostConnWithOption w ignorablePods)) as [[conns|err]|];
      try discriminate.
    rewrite outcome_bind.
    pose proof (waitForClusterStability_never_succeeds w conns) as Hnever.
    destruct (outcome (waitForClusterStability w conns)) as [[| |]|];
      try discriminate. congruence.
  - destruct (newHostConn_cases w pod) as [Hp | [h Hh]].
    + unfold waitForNodeSafeStopReady. rewrite Hp. constructor.
    + rewrite (waitForNodeSafeStopReady_scopeLoop w _ _ _ Hh).
      destruct (getNamespaces w h) as [nss|err]; cbn [trace snd].
      * constructor; [reflexivity | apply scopeLoop_noQuiesce].
      * repeat constructor.
  - destruct (newHostConn_cases w pod) as [Hp | [h Hh]].
    + unfold waitForNodeSafeStopReady. rewrite Hp. discriminate.
    + rewrite (waitForNodeSafeStopReady_scopeLoop w _ _ _ Hh).
      destruct (getNamespaces w h) as [nss|err] eqn:Hns; [|discriminate].
      intros H. exists h, nss. split; [exact Hh|]. split; [exact Hns|].
      apply (scopeLoop_success w pod ignorablePods). exact H.
Qed.

(** The theorem on a cluster whose only namespace is strong-consistency
    without the node in its roster. *)
Lemma quiesce_never_issued_witness :
  outcome (waitForNodeSafeStopReady (clusterWorld ["foo"] (stableFrom 1)) podA [])
    = Returns reconcileSuccess ∧
  ∃ hostConn namespaces,
    getNamespaces (clusterWorld ["foo"] (stableFrom 1)) hostConn = Ok namespaces ∧
    outcome (selectDrainScope (clusterWorld ["foo"] (stableFrom 1)) hostConn namespaces)
      = Returns (Ok None).
Proof.
  split; [reflexivity|].
  destruct (proj2 (proj2 (proj2
             (quiesce_never_issued (clusterWorld ["foo"] (stableFrom 1)) podA [] "foo")))
             eq_refl) as (h & nss & _ & Hns & Hsel).
  exists h, nss. split; [exact Hns | exact Hsel].
Defined.

(** ** The entry points: query errors and the nil service port *)

(** X11.  [waitForNodeSafeStopReady] returns the error of a failed query
    as it is and asks nothing further: a failed namespace listing ends the
    run after that one call; a failed strong-consistency or roster query
    about a namespace, reached after namespaces that were all passed, ends
    it with no query about the namespaces behind and no quiesce flow. *)
Theorem drain_query_errors (w : World) (pod : Pod) (ignorablePods : list Pod)
    (hostConn : HostConn) :
  newHostConn w pod = (Returns (Ok hostConn), []) →
  (∀ err, getNamespaces w hostConn = Err err →
     waitForNodeSafeStopReady w pod ignorablePods =
       (Returns (reconcileError err), [CallGetNamespaces hostConn])) ∧
  (∀ pre ns post err,
     getNamespaces w hostConn = Ok (pre ++ ns :: post) →
     (∀ n, n ∈ pre → isNamespaceSCEnabled w hostConn n = Ok true ∧
                      isNodeInRoster w hostConn n = Ok false) →
     (isNamespaceSCEnabled w hostConn ns = Err err →
      waitForNodeSafeStopReady w pod ignorablePods =
        (Returns (reconcileError err),
         CallGetNamespaces hostConn
           :: flat_map (queries hostConn) pre
           ++ [CallIsNamespaceSCEnabled hostConn ns])) ∧
     (isNamespaceSCEnabled w hostConn ns = Ok true →
      isNodeInRoster w hostConn ns = Err err →
      waitForNodeSafeStopReady w pod ignorablePods =
        (Returns (reconcileError err),
         CallGetNamespaces hostConn
           :: flat_map (queries hostConn) pre ++ queries hostConn ns))).
Proof.
  intros Hconn. rewrite (waitForNodeSafeStopReady_scopeLoop w _ _ _ Hconn).
  split.
  - intros err ->. reflexivity.
  - intros pre ns post err -> Hpre.
    rewrite scopeLoop_selectDrainScope.
    rewrite (selectDrainScope_pass w hostConn pre (ns :: post) Hpre).
    rewrite selectDrainScope_cons.
    split.
    + intros ->. cbn [fst snd]. rewrite bind_Returns.
      cbn [afterScope mret Go_ret fst snd]. rewrite app_nil_r. reflexivity.
    + intros -> ->. cbn [fst snd]. rewrite bind_Returns.
      cbn [afterScope mret Go_ret fst snd]. rewrite app_nil_r. reflexivity.
Qed.

(** The theorem on clusters whose namespace listing, strong-consistency
    query and roster query fail. *)
Lemma drain_query_errors_witness :
  waitForNodeSafeStopReady
      (withNode (Err "info call timed out") sampleSC sampleRoster None (stableWorld 1))
      podA [] =
    (Returns (reconcileError "info call timed out"), [CallGetNamespaces connOfA]) ∧
  waitForNodeSafeStopReady
      (withNode (Ok ["foo"; "bad"; "test"]) scFails sampleRoster None (stableWorld 1))
      podA [] =
    (Returns (reconcileError "info call timed out"),
     [CallGetNamespaces connOfA;
      CallIsNamespaceSCEnabled connOfA "foo"; CallIsNodeInRoster connOfA "foo";
      CallIsNamespaceSCEnabled connOfA "bad"]) ∧
  waitForNodeSafeStopReady
      (withNode (Ok ["foo"; "bad"; "test"]) sampleSC rosterFails None (stableWorld 1))
      podA [] =
    (Returns (reconcileError "roster unavailable"),
     [CallGetNamespaces connOfA;
      CallIsNamespaceSCEnabled connOfA "foo"; CallIsNodeInRoster connOfA "foo";
      CallIsNamespaceSCEnabled connOfA "bad"; CallIsNodeInRoster connOfA "bad"]).
Proof.
  split; [|split].
  - exact (proj1 (drain_query_errors
                    (withNode (Err "info call timed out") sampleSC sampleRoster None
                              (stableWorld 1)) podA [] connOfA eq_refl)
                 _ eq_refl).
  - refine (proj1 (proj2 (drain_query_errors
                    (withNode (Ok ["foo"; "bad"; "test"]) scFails sampleRoster None
                              (stableWorld 1)) podA [] connOfA eq_refl)
                         ["foo"] "bad" ["test"] "info call timed out" eq_refl _)
                  eq_refl).
    intros n Hn. apply list_elem_of_singleton in Hn as ->. split; reflexivity.
  - refine (proj2 (proj2 (drain_query_errors
                    (withNode (Ok ["foo"; "bad"; "test"]) sampleSC rosterFails None
                              (stableWorld 1)) podA [] connOfA eq_refl)
                         ["foo"] "bad" ["test"] "roster unavailable" eq_refl _)
                  eq_refl eq_refl).
    intros n Hn. apply list_elem_of_singleton in Hn as ->. split; reflexivity.
Defined.

(** X12.  With no service port to dial (no usable TLS port and no plain
    port) every entry point that builds a connection stops on the nil
    pointer before any call is made; the snapshot stops at the first pod
    that needs a connection, after the pod listing. *)
Theorem nil_service_port_panics (w : World) (pod clearPod : Pod)
    (clearPodName : string) (ignorablePods : list Pod) (tlsName : string)
    (tlsPort : option Z) :
  GetServiceTLSNameAndPort w = (tlsName, tlsPort) →
  tlsName = "" ∨ tlsPort = None →
  GetServicePort w = None →
  waitForNodeSafeStopReady w pod ignorablePods = (Panics, []) ∧
  tipHostname w pod clearPod = (Panics, []) ∧
  tipClearHostname w pod clearPodName = (Panics, []) ∧
  alumniReset w pod = (Panics, []) ∧
  (∀ pre p post,
     getClusterPodList w = Ok (pre ++ p :: post) →
     (∀ q, q ∈ pre → skipped w ignorablePods q = true) →
     IsPodTerminating w p = false →
     IsPodRunningAndReady w p = true →
     newAllHostConnWithOption w ignorablePods = (Panics, [CallGetClusterPodList])).
Proof.
  intros Hcfg Hfall Hnone.
  assert (∀ q, newAsConn w q = (Panics, [])) as Has.
  { intros q. rewrite (newAsConn_eq w q _ _ Hcfg), (fallback_port _ _ Hfall), Hnone.
    reflexivity. }
  assert (∀ q, newHostConn w q = (Panics, [])) as Hhc.
  { intros q. unfold newHostConn. rewrite Has. reflexivity. }
  split; [unfold waitForNodeSafeStopReady; rewrite Hhc; reflexivity|].
  split; [unfold tipHostname; rewrite Has; reflexivity|].
  split; [unfold tipClearHostname; rewrite Has; reflexivity|].
  split; [unfold alumniReset; rewrite Has; reflexivity|].
  intros pre p post Hl Hs Ht Hr.
  rewrite (newAllHostConnWithOption_items w ignorablePods _ Hl)
    by (destruct pre; discriminate).
  rewrite (hostConnLoop_skip w ignorablePods pre (p :: post) [] Hs).
  cbn [hostConnLoop]. rewrite Ht, Hr, Hhc. reflexivity.
Qed.

(** The theorem on [noPortWorld], whose first pod is running and ready. *)
Lemma nil_service_port_panics_witness :
  GetServicePort noPortWorld = None ∧
  waitForNodeSafeStopReady noPortWorld podA [] = (Panics, []) ∧
  alumniReset noPortWorld podA = (Panics, []) ∧
  newAllHostConnWithOption noPortWorld [podB] = (Panics, [CallGetClusterPodList]).
Proof.
  destruct (nil_service_port_panics noPortWorld podA podB "aerocluster-0-1" [podB]
              "" None eq_refl (or_introl eq_refl) eq_refl)
    as (Hrun & _ & _ & Halumni & Hsnap).
  split; [reflexivity|]. split; [exact Hrun|]. split; [exact Halumni|].
  apply (Hsnap [] podA [podB; podC] eq_refl); [|reflexivity..].
  intros q Hq. inversion Hq.
Defined.

(** X13.  Once the connection descriptor is built, [alumniReset] makes
    exactly one call, the alumni reset on the pod's own address, whatever
    the heartbeat configuration, and returns what that call returns. *)
Theorem alumniReset_one_call (w : World) (pod : Pod) (asConn : ASConn) :
  newAsConn w pod = (Returns (Ok asConn), []) →
  alumniReset w pod = (Returns (AlumniReset w asConn), [CallAlumniReset asConn]) ∧
  AerospikeHostName asConn = PodIP pod.
Proof.
  intros H. split; [unfold alumniReset; rewrite H, bind_Returns_nil; reflexivity|].
  destruct (GetServiceTLSNameAndPort w) as [tlsName tlsPort] eqn:Hcfg.
  rewrite (newAsConn_eq w pod _ _ Hcfg) in H.
  destruct (if _ || _ then _ else _); [|discriminate].
  injection H as <-. reflexivity.
Qed.

(** The theorem on a node that refuses the reset. *)
Lemma alumniReset_one_call_witness :
  alumniReset (withNode (Ok ["test"]) sampleSC sampleRoster (Some "reset refused")
                        (stableWorld 1)) podA
    = (Returns (Some "reset refused"), [CallAlumniReset asConnOfA]).
Proof.
  exact (proj1 (alumniReset_one_call
                  (withNode (Ok ["test"]) sampleSC sampleRoster (Some "reset refused")
                            (stableWorld 1)) podA asConnOfA eq_refl)).
Defined.

(** X14.  Once the connection descriptor is built, [tipHostname] and
    [tipClearHostname] return nil exactly when every configured heartbeat
    call succeeds, and they never make more than two calls. *)
Theorem tip_nil_iff (w : World) (pod clearPod : Pod) (clearPodName : string)
    (asConn : ASConn) :
  newAsConn w pod = (Returns (Ok asConn), []) →
  (outcome (tipHostname w pod clearPod) = Returns None ↔
   ∀ port, port ∈ heartbeatPorts w →
           TipHostname w asConn (getFQDNForPod w (Name clearPod)) port = None) ∧
  (outcome (tipClearHostname w pod clearPodName) = Returns None ↔
   ∀ port, port ∈ heartbeatPorts w →
           TipClearHostname w asConn (getFQDNForPod w clearPodName) port = None) ∧
  (length (trace (tipHostname w pod clearPod)) ≤ 2)%nat ∧
  (length (trace (tipClearHostname w pod clearPodName)) ≤ 2)%nat.
Proof.
  intros Hconn.
  destruct (heartbeatPorts_cases w) as (n & tls & plain & Htls & Hplain & ->).
  unfold tipHostname, tipClearHostname.
  rewrite Hconn, !bind_Returns_nil, Htls, Hplain.
  split; [|split; [|split]].
  - destruct tls as [p1|], plain as [p2|]; cbn [option_list app];
      rewrite ?bind_call, ?bind_ret; cbn [outcome fst];
      repeat match goal with
             | |- context [TipHostname w asConn ?h ?p] =>
               destruct (TipHostname w asConn h p) eqn:?;
               rewrite ?bind_call, ?bind_ret; cbn [outcome fst]
             end;
      (split; [intros H port Hin; try discriminate;
               repeat (apply elem_of_cons in Hin as [->|Hin]); try assumption;
               inversion Hin
              | intros H; try reflexivity;
                repeat match goal with
                       | E : TipHostname w asConn _ ?p = Some _ |- _ =>
                         rewrite H in E by (repeat constructor); discriminate
                       end]).
  - destruct tls as [p1|], plain as [p2|]; cbn [option_list app];
      rewrite ?bind_call, ?bind_ret; cbn [outcome fst];
      repeat match goal with
             | |- context [TipClearHostname w asConn ?h ?p] =>
               destruct (TipClearHostname w asConn h p) eqn:?;
               rewrite ?bind_call, ?bind_ret; cbn [outcome fst]
             end;
      (split; [intros H port Hin; try discriminate;
               repeat (apply elem_of_cons in Hin as [->|Hin]); try assumption;
               inversion Hin
              | intros H; try reflexivity;
                repeat match goal with
                       | E : TipClearHostname w asConn _ ?p = Some _ |- _ =>
                         rewrite H in E by (repeat constructor); discriminate
                       end]).
  - destruct tls as [p1|], plain as [p2|];
      rewrite ?bind_call, ?bind_ret; cbn [trace snd];
      repeat match goal with
             | |- context [TipHostname w asConn ?h ?p] =>
               destruct (TipHostname w asConn h p);
               rewrite ?bind_call, ?bind_ret; cbn [trace snd]
             end; cbn; lia.
  - destruct tls as [p1|], plain as [p2|];
      rewrite ?bind_call, ?bind_ret; cbn [trace snd];
      repeat match goal with
             | |- context [TipClearHostname w asConn ?h ?p] =>
               destruct (TipClearHostname w asConn h p);
               rewrite ?bind_call, ?bind_ret; cbn [trace snd]
             end; cbn; lia.
Qed.

(** The theorem on a cluster with both heartbeat ports, first with all
    calls succeeding, then with the TLS call refused. *)
Lemma tip_nil_iff_witness :
  newAsConn (heartbeatWorld tlsRefused) podA = (Returns (Ok asConnOfA), []) ∧
  outcome (tipHostname (heartbeatWorld (λ _, None)) podA podB) = Returns None ∧
  ¬ (∀ port, port ∈ heartbeatPorts (heartbeatWorld tlsRefused) →
             TipClearHostname (heartbeatWorld tlsRefused) asConnOfA
               (getFQDNForPod (heartbeatWorld tlsRefused) "aerocluster-0-1") port = None).
Proof.
  split; [reflexivity|]. split.
  - apply (proj1 (tip_nil_iff (heartbeatWorld (λ _, None)) podA podB "aerocluster-0-1"
                    asConnOfA eq_refl)).
    intros port _. reflexivity.
  - intros H.
    apply (proj1 (proj2 (tip_nil_iff (heartbeatWorld tlsRefused) podA podB
                           "aerocluster-0-1" asConnOfA eq_refl))) in H.
    vm_compute in H. discriminate.
Defined.

(** ** More about ParseInfoIntoMap *)

Section parser_more.
Import strings.

Lemma ParseInfoIntoMap_parseItems str del sep :
  ParseInfoIntoMap str del sep = parseItems (Split str del) sep ∅.
Proof.
  unfold ParseInfoIntoMap. destruct (decide (str = "")) as [->|]; [|reflexivity].
  unfold Split. destruct (decide (del = "")); reflexivity.
Qed.

Lemma parseItems_app l1 l2 sep m :
  parseItems (l1 ++ l2) sep m =
  match parseItems l1 sep m with
  | Ok m' => parseItems l2 sep m'
  | Err e => Err e
  end.
Proof.
  revert m; induction l1 as [|item l1 IH]; intros m; [reflexivity|].
  cbn [app parseItems]. destruct (decide (item = "")); [apply IH|].
  destruct (Split item sep) as [|kv0 [|kv1 kv2]]; try reflexivity. apply IH.
Qed.

(** The parser only adds to the map it starts from, later items first. *)
Lemma parseItems_union l sep (m : gmap string string) :
  parseItems l sep m =
  match parseItems l sep ∅ with
  | Ok m' => Ok (m' ∪ m)
  | Err e => Err e
  end.
Proof.
  revert m; induction l as [|item l IH]; intros m.
  - cbn. rewrite (left_id_L ∅ (∪)). reflexivity.
  - cbn [parseItems]. destruct (decide (item = "")); [apply IH|].
    destruct (Split item sep) as [|kv0 [|kv1 kv2]]; try reflexivity.
    rewrite (IH (<[kv0:=Join (kv1 :: kv2) sep]> m)).
    rewrite (IH (<[kv0:=Join (kv1 :: kv2) sep]> ∅)).
    destruct (parseItems l sep ∅) as [m'|e]; [|reflexivity].
    f_equal. rewrite <- (assoc_L (∪)). f_equal.
    rewrite <- insert_union_l, (left_id_L ∅ (∪)). reflexivity.
Qed.

Lemma length_take n s : String.length (take n s) = Nat.min n (String.length s).
Proof.
  revert s; induction n as [|n IH]; intros [|a s]; simpl; try reflexivity.
  f_equal. apply IH.
Qed.

Lemma drop_app_le j a b :
  (j ≤ String.length a)%nat → drop j (a +:+ b) = drop j a +:+ b.
Proof.
  revert a; induction j as [|j IH]; intros a Hj.
  - rewrite !drop_0. reflexivity.
  - destruct a as [|x a]; [simpl in Hj; lia|]. simpl in Hj.
    change (String x a +:+ b) with (String x (a +:+ b)). cbn [drop].
    apply IH. lia.
Qed.

Lemma string_app_assoc (a b c : string) : (a +:+ b) +:+ c = a +:+ (b +:+ c).
Proof.
  induction a as [|x a IH]; [reflexivity|].
  change (String x ((a +:+ b) +:+ c) = String x (a +:+ (b +:+ c))). f_equal. exact IH.
Qed.

Lemma HasPrefix_app_l a b p : HasPrefix a p = true → HasPrefix (a +:+ b) p = true.
Proof.
  intros H. apply HasPrefix_inv in H. rewrite H, string_app_assoc.
  apply HasPrefix_app.
Qed.

(** What stands before the leftmost occurrence holds no occurrence. *)
Lemma take_Index_free s sep i :
  sep ≠ "" → Index s sep = Some i → Contains (take i s) sep = false.
Proof.
  intros Hsep Hi. unfold Contains.
  destruct (Index (take i s) sep) as [j|] eqn:Hj; [exfalso|reflexivity].
  destruct (Index_decomp _ _ _ Hj) as [_ Hlen].
  destruct (Index_Some _ _ _ Hj) as (Hp & _ & _).
  destruct (Index_Some _ _ _ Hi) as (_ & _ & Hleft).
  rewrite length_take in Hlen.
  assert (0 < String.length sep)%nat by (destruct sep; [congruence | simpl; lia]).
  assert (HasPrefix (drop j s) sep = true) as Hocc.
  { rewrite <- (take_drop i s) at 1.
    rewrite drop_app_le by (rewrite length_take; lia).
    apply HasPrefix_app_l, Hp. }
  rewrite Hleft in Hocc by lia. discriminate.
Qed.

Lemma foldl_assign_lookup sep l (m0 : gmap string string) k v :
  foldl (assign sep) m0 l !! k = Some v →
  m0 !! k = Some v ∨ ∃ item, item ∈ l ∧ cutFirst item sep = Some (k, v).
Proof.
  revert m0; induction l as [|x l IH]; intros m0 H; [left; exact H|].
  cbn [foldl] in H. destruct (IH _ H) as [H0 | (item & Hin & Hc)].
  - unfold assign in H0. destruct (cutFirst x sep) as [[k' v']|] eqn:Hx; [|left; exact H0].
    destruct (decide (k' = k)) as [->|Hne].
    + rewrite lookup_insert_eq in H0. injection H0 as ->.
      right. exists x. split; [left | exact Hx].
    + rewrite lookup_insert_ne in H0 by exact Hne. left. exact H0.
  - right. exists item. split; [right; exact Hin | exact Hc].
Qed.

End parser_more.

(** X15.  For a non-empty separator every entry of the map that
    [ParseInfoIntoMap] returns comes from an item of the input: some
    non-empty item is the key, the separator and the value, in this order,
    and the key holds no separator. *)
Theorem parsed_entries_come_from_items (str del sep : string)
    (m : gmap string string) (k v : string) :
  sep ≠ "" →
  ParseInfoIntoMap str del sep = Ok m →
  m !! k = Some v →
  strings.Contains k sep = false ∧
  ∃ item, item ∈ strings.Split str del ∧ item ≠ "" ∧ item = k +:+ sep +:+ v.
Proof.
  intros Hsep Hm Hk. rewrite ParseInfoIntoMap_parseItems in Hm.
  apply parseItems_ok in Hm; [|exact Hsep]. subst m.
  apply foldl_assign_lookup in Hk as [Hk | (item & Hin & Hc)].
  { rewrite lookup_empty in Hk. discriminate. }
  apply list_elem_of_filter in Hin as [Hne Hin].
  unfold cutFirst in Hc.
  destruct (strings.Index item sep) as [i|] eqn:Hi; [|discriminate].
  injection Hc as <- <-. split; [apply take_Index_free; assumption|].
  exists item. split; [exact Hin|]. split; [exact Hne|].
  apply Index_decomp, Hi.
Qed.

(** The theorem on an input whose value holds the separator. *)
Lemma parsed_entries_come_from_items_witness :
  ParseInfoIntoMap "a=1;;b=x=y" ";" "=" = Ok (<["b" := "x=y"]> (<["a" := "1"]> ∅)) ∧
  strings.Contains "b" "=" = false ∧
  ∃ item, item ∈ strings.Split "a=1;;b=x=y" ";" ∧ item = "b" +:+ "=" +:+ "x=y".
Proof.
  assert (ParseInfoIntoMap "a=1;;b=x=y" ";" "="
          = Ok (<["b" := "x=y"]> (<["a" := "1"]> ∅))) as Hm
    by (vm_compute; reflexivity).
  split; [exact Hm|].
  destruct (parsed_entries_come_from_items "a=1;;b=x=y" ";" "=" _ "b" "x=y"
              ltac:(discriminate) Hm (lookup_insert_eq _ _ _))
    as (Hfree & item & Hin & _ & Hitem).
  split; [exact Hfree|]. exists item. split; [exact Hin | exact Hitem].
Defined.

(** X16.  For a non-empty separator the error of [ParseInfoIntoMap] names
    the first non-empty item without a separator; the items behind it are
    not looked at, and the map built so far is dropped. *)
Theorem parse_error_names_first_item (str del sep : string) (l1 l2 : list string)
    (item : string) :
  sep ≠ "" →
  strings.Split str del = l1 ++ item :: l2 →
  (∀ x, x ∈ l1 → x = "" ∨ strings.Contains x sep = true) →
  item ≠ "" →
  strings.Contains item sep = false →
  ParseInfoIntoMap str del sep = Err ("error parsing info item " +:+ item).
Proof.
  intros Hsep Hsplit Hl1 Hne Hc.
  rewrite ParseInfoIntoMap_parseItems, Hsplit, parseItems_app.
  destruct (parseItems l1 sep ∅) as [m'|e] eqn:Hp.
  - rewrite parseItems_cons by exact Hsep.
    rewrite decide_False by exact Hne.
    apply cutFirst_Contains in Hc. rewrite Hc. reflexivity.
  - exfalso.
    assert (isErr (parseItems l1 sep ∅) = true) as He by (rewrite Hp; reflexivity).
    apply parseItems_err in He as (x & Hx & Hxne & Hxc); [|exact Hsep].
    destruct (Hl1 x Hx) as [?|Hcx]; congruence.
Qed.

(** The theorem on an input with two items without separator. *)
Lemma parse_error_names_first_item_witness :
  strings.Split "a=1;;oops;b=2;bad" ";" = ["a=1"; ""] ++ "oops" :: ["b=2"; "bad"] ∧
  ParseInfoIntoMap "a=1;;oops;b=2;bad" ";" "=" = Err "error parsing info item oops".
Proof.
  split; [reflexivity|].
  apply (parse_error_names_first_item _ _ _ ["a=1"; ""] ["b=2"; "bad"] "oops");
    [discriminate | reflexivity | | discriminate | reflexivity].
  intros x Hx. repeat (apply elem_of_cons in Hx as [->|Hx]);
    [right; reflexivity | left; reflexivity | inversion Hx].
Defined.

(** X17.  A delimiter in front of the input changes nothing, whatever the
    (non-empty) delimiter and the separator. *)
Theorem leading_delimiter_ignored (str del sep : string) :
  del ≠ "" →
  ParseInfoIntoMap (del +:+ str) del sep = ParseInfoIntoMap str del sep.
Proof.
  intros Hdel. rewrite !ParseInfoIntoMap_parseItems.
  rewrite (Split_Index (del +:+ str) del Hdel).
  assert (strings.Index (del +:+ str) del = Some 0%nat) as ->.
  { destruct del as [|a del]; [congruence|].
    change (String a del +:+ str) with (String a (del +:+ str)).
    cbn [strings.Index].
    change (String a (del +:+ str)) with (String a del +:+ str).
    rewrite HasPrefix_app. reflexivity. }
  rewrite Nat.add_0_l, drop_app. reflexivity.
Qed.

(** The theorem on a two-byte delimiter. *)
Lemma leading_delimiter_ignored_witness :
  ParseInfoIntoMap ("::" +:+ "a=1::b=2") "::" "="
    = Ok (<["b" := "2"]> (<["a" := "1"]> ∅)).
Proof.
  rewrite (leading_delimiter_ignored "a=1::b=2" "::" "=") by discriminate.
  vm_compute. reflexivity.
Defined.

(** ** ParseInfoIntoMap with a one-byte delimiter *)

Section one_byte.
Import strings.

Lemma Index_char_cons a s d :
  Index (String a s) (String d "") =
  if decide (d = a) then Some 0%nat else S <$> Index s (String d "").
Proof. cbn [Index HasPrefix]. destruct (decide (d = a)); reflexivity. Qed.

Lemma Index_char_app a b d :
  Index (a +:+ b) (String d "") =
  match Index a (String d "") with
  | Some i => Some i
  | None => (λ i, String.length a + i)%nat <$> Index b (String d "")
  end.
Proof.
  induction a as [|x a IH].
  - change ("" +:+ b) with b. cbn. destruct (Index b (String d "")); reflexivity.
  - change (String x a +:+ b) with (String x (a +:+ b)).
    rewrite !Index_char_cons. destruct (decide (d = x)); [reflexivity|].
    rewrite IH. destruct (Index a (String d "")); [reflexivity|].
    destruct (Index b (String d "")); reflexivity.
Qed.

Lemma Split_char_cons a s d :
  Split (String a s) (String d "") =
  if decide (d = a) then "" :: Split s (String d "")
  else match Split s (String d "") with
       | p :: ps => String a p :: ps
       | [] => []
       end.
Proof.
  assert (String d "" ≠ "") as Hd by discriminate.
  rewrite (Split_Index (String a s) _ Hd), Index_char_cons.
  destruct (decide (d = a)) as [->|Hne].
  - reflexivity.
  - rewrite (Split_Index s _ Hd).
    destruct (Index s (String d "")) as [i|]; reflexivity.
Qed.

(** Cutting at a one-byte delimiter goes piece by piece. *)
Lemma Split_app_char s1 s2 d :
  Split (s1 +:+ String d s2) (String d "") =
  Split s1 (String d "") ++ Split s2 (String d "").
Proof.
  assert (String d "" ≠ "") as Hd by discriminate.
  induction s1 as [|a s1 IH].
  - change ("" +:+ String d s2) with (String d s2).
    rewrite Split_char_cons, decide_True by reflexivity. reflexivity.
  - change (String a s1 +:+ String d s2) with (String a (s1 +:+ String d s2)).
    rewrite !Split_char_cons. destruct (decide (d = a)); [rewrite IH; reflexivity|].
    rewrite IH. pose proof (Split_nonempty s1 _ Hd) as Hne.
    destruct (Split s1 (String d "")); [congruence | reflexivity].
Qed.

Lemma take_app_length a b : take (String.length a) (a +:+ b) = a.
Proof.
  induction a as [|x a IH]; [destruct b; reflexivity|].
  change (String x a +:+ b) with (String x (a +:+ b)). cbn. f_equal. exact IH.
Qed.

(** One well-formed item parses to its own entry. *)
Lemma parse_single k v c d :
  c ≠ d →
  Contains k (String c "") = false →
  Contains k (String d "") = false →
  Contains v (String d "") = false →
  ParseInfoIntoMap (k +:+ String c v) (String d "") (String c "")
    = Ok (<[k := v]> ∅).
Proof.
  unfold Contains. intros Hcd Hkc Hkd Hvd.
  destruct (Index k (String c "")) eqn:Ek; [discriminate|].
  destruct (Index k (String d "")) eqn:Ekd; [discriminate|].
  destruct (Index v (String d "")) eqn:Evd; [discriminate|].
  assert (String d "" ≠ "") as Hd by discriminate.
  assert (String c "" ≠ "") as Hc by discriminate.
  rewrite ParseInfoIntoMap_parseItems, (Split_Index _ _ Hd), Index_char_app, Ekd.
  rewrite Index_char_cons, decide_False by congruence. rewrite Evd. cbn [fmap option_fmap option_map].
  rewrite parseItems_cons by exact Hc.
  rewrite decide_False by (destruct k; discriminate).
  unfold cutFirst. rewrite Index_char_app, Ek, Index_char_cons, decide_True by reflexivity.
  cbn [fmap option_fmap option_map String.length].
  rewrite Nat.add_0_r, take_app_length, <- drop_drop, drop_app. reflexivity.
Qed.

End one_byte.

Lemma parse_concat_gen (s1 s2 : string) (d : ascii) (sep : string) :
  ParseInfoIntoMap (s1 +:+ String d s2) (String d "") sep =
    match ParseInfoIntoMap s1 (String d "") sep with
    | Err e => Err e
    | Ok m1 =>
      match ParseInfoIntoMap s2 (String d "") sep with
      | Err e => Err e
      | Ok m2 => Ok (m2 ∪ m1)
      end
    end.
Proof.
  rewrite !ParseInfoIntoMap_parseItems, Split_app_char, parseItems_app.
  destruct (parseItems (strings.Split s1 (String d "")) sep ∅) as [m1|e]; [|reflexivity].
  apply parseItems_union.
Qed.

(** X18.  With a one-byte delimiter, parsing two inputs joined by the
    delimiter is parsing the first and then the second into the same map:
    the first error wins, and an entry of the second input replaces an
    entry of the first with the same key.  In particular a delimiter at the
    end of the input changes nothing. *)
Theorem parse_concat (s1 s2 : string) (d : ascii) (sep : string) :
  ParseInfoIntoMap (s1 +:+ String d s2) (String d "") sep =
    match ParseInfoIntoMap s1 (String d "") sep with
    | Err e => Err e
    | Ok m1 =>
      match ParseInfoIntoMap s2 (String d "") sep with
      | Err e => Err e
      | Ok m2 => Ok (m2 ∪ m1)
      end
    end ∧
  ParseInfoIntoMap (s1 +:+ String d "") (String d "") sep
    = ParseInfoIntoMap s1 (String d "") sep.
Proof.
  split; [apply parse_concat_gen|].
  rewrite parse_concat_gen.
  destruct (ParseInfoIntoMap s1 (String d "") sep) as [m1|e]; [|reflexivity].
  change (ParseInfoIntoMap "" (String d "") sep) with (Ok (∅ : gmap string string)).
  cbv beta iota. rewrite (left_id_L ∅ (∪)). reflexivity.
Qed.

(** X19.  Round trip with one-byte delimiter and separator: the pairs
    [k sep v] joined by the delimiter parse back to the map of the pairs, a
    later pair replacing an earlier one with the same key, provided the
    keys hold neither byte and the values do not hold the delimiter. *)
Theorem format_parse_roundtrip (pairs : list (string * string)) (d c : ascii) :
  c ≠ d →
  (∀ k v, (k, v) ∈ pairs →
          strings.Contains k (String c "") = false ∧
          strings.Contains k (String d "") = false ∧
          strings.Contains v (String d "") = false) →
  ParseInfoIntoMap
    (strings.Join ((λ kv, kv.1 +:+ String c kv.2) <$> pairs) (String d ""))
    (String d "") (String c "")
  = Ok (list_to_map (reverse pairs)).
Proof.
  intros Hcd. induction pairs as [|[k v] pairs IH]; intros Hp; [reflexivity|].
  destruct (Hp k v ltac:(left)) as (Hkc & Hkd & Hvd).
  assert (ParseInfoIntoMap (k +:+ String c v) (String d "") (String c "")
          = Ok (<[k := v]> ∅)) as Hone by (apply parse_single; assumption).
  rewrite reverse_cons, list_to_map_app. cbn [list_to_map foldr fst snd uncurry].
  destruct pairs as [|p pairs].
  - cbn. rewrite (left_id_L ∅ (∪)). exact Hone.
  - cbn [fmap list_fmap fst snd] in *. rewrite Join_cons by discriminate.
    change (String d "" +:+ ?s) with (String d s).
    rewrite (parse_concat_gen _ _ d (String c "")), Hone.
    cbn [fst snd]. rewrite IH by (intros k' v' Hin; apply Hp; right; exact Hin).
    reflexivity.
Qed.

(** The theorem on three pairs, one key coming twice and one value holding
    the separator. *)
Lemma format_parse_roundtrip_witness :
  strings.Join ((λ kv, kv.1 +:+ String "=" kv.2)
                  <$> [("a", "1"); ("b", "x=y"); ("a", "2")]) ";"
    = "a=1;b=x=y;a=2" ∧
  ParseInfoIntoMap "a=1;b=x=y;a=2" ";" "="
    = Ok (list_to_map (reverse [("a", "1"); ("b", "x=y"); ("a", "2")])) ∧
  (list_to_map (reverse [("a", "1"); ("b", "x=y"); ("a", "2")]) : gmap string string)
    !! "a" = Some "2".
Proof.
  split; [reflexivity|]. split; [|vm_compute; reflexivity].
  apply (format_parse_roundtrip [("a", "1"); ("b", "x=y"); ("a", "2")] ";" "=");
    [discriminate|].
  intros k v Hin.
  repeat (apply elem_of_cons in Hin as [[= -> ->]|Hin]);
    [repeat split; reflexivity.. | inversion Hin].
Defined.

(** ** The loop of waitForNodeSafeStopReady with its log lines *)

Section logged_facts.
Variable w : World.

Lemma logged_scopeLoop_cons quiesce pod hostConn ns namespaces :
  Logged.scopeLoop w quiesce pod hostConn (ns :: namespaces) =
  match isNamespaceSCEnabled w hostConn ns with
  | Err err => (Returns (reconcileError err), [CallIsNamespaceSCEnabled hostConn ns])
  | Ok false =>
    (outcome (quiesce ns),
     [CallIsNamespaceSCEnabled hostConn ns;
      LogInfo "Namespace is not sc enabled, do quiesce using this namespace"
              [("namespace", LogString ns)]]
       ++ trace (quiesce ns))
  | Ok true =>
    match isNodeInRoster w hostConn ns with
    | Err err => (Returns (reconcileError err), queries hostConn ns)
    | Ok true =>
      (outcome (quiesce ns),
       [CallIsNamespaceSCEnabled hostConn ns; CallIsNodeInRoster hostConn ns;
        LogInfo "Namespace is sc enabled and in roster, do quiesce using this namespce"
                [("namespace", LogString ns)]]
         ++ trace (quiesce ns))
    | Ok false =>
      (outcome (Logged.scopeLoop w quiesce pod hostConn namespaces),
       passed pod hostConn ns
         ++ trace (Logged.scopeLoop w quiesce pod hostConn namespaces))
    end
  end.
Proof.
  cbn [Logged.scopeLoop]. unfold Logged.Info. rewrite bind_call.
  destruct (isNamespaceSCEnabled w hostConn ns) as [[|]|err]; cbn [negb];
    rewrite ?bind_call; try reflexivity.
  destruct (isNodeInRoster w hostConn ns) as [[|]|err];
    rewrite ?bind_call; reflexivity.
Qed.

Lemma logged_scopeLoop_nil quiesce pod hostConn :
  Logged.scopeLoop w quiesce pod hostConn [] =
  (Returns reconcileSuccess,
   [LogInfo "Quiesce not needed in node. Node is blacklisted or does not have any non-sc namespace"
            [("node", LogString (Name pod))]]).
Proof. reflexivity. Qed.

(** Passed namespaces cost their queries and their log line each. *)
Lemma logged_scopeLoop_pass quiesce pod hostConn pre rest :
  (∀ n, n ∈ pre → isNamespaceSCEnabled w hostConn n = Ok true ∧
                   isNodeInRoster w hostConn n = Ok false) →
  Logged.scopeLoop w quiesce pod hostConn (pre ++ rest) =
  (outcome (Logged.scopeLoop w quiesce pod hostConn rest),
   flat_map (passed pod hostConn) pre
     ++ trace (Logged.scopeLoop w quiesce pod hostConn rest)).
Proof.
  induction pre as [|n pre IH]; intros H.
  - symmetry. apply run_eta.
  - change ((n :: pre) ++ rest) with (n :: (pre ++ rest)).
    rewrite logged_scopeLoop_cons.
    destruct (H n ltac:(left)) as [-> ->].
    rewrite IH by (intros; apply H; right; assumption).
    cbn [outcome trace fst snd flat_map]. rewrite <- app_assoc. reflexivity.
Qed.

(** Whatever the namespaces, the loop either selects one, the first that
    is not strong-consistency or has the node in its roster, or selects
    none. *)
Lemma logged_scopeLoop_decides pod hostConn namespaces :
  (∃ pre ns post,
     namespaces = pre ++ ns :: post ∧
     (∀ n, n ∈ pre → isNamespaceSCEnabled w hostConn n = Ok true ∧
                      isNodeInRoster w hostConn n = Ok false) ∧
     (isNamespaceSCEnabled w hostConn ns = Ok false ∨
      isNamespaceSCEnabled w hostConn ns = Ok true ∧
      isNodeInRoster w hostConn ns = Ok true) ∧
     selects w pod hostConn namespaces ns) ∨
  (∃ res, selectsNone w pod hostConn namespaces res).
Proof.
  induction namespaces as [|n namespaces IH].
  - right. exists reconcileSuccess. eexists. split; [|intros q; reflexivity].
    repeat constructor.
  - destruct (isNamespaceSCEnabled w hostConn n) as [[|]|err] eqn:Hsc.
    + destruct (isNodeInRoster w hostConn n) as [[|]|err] eqn:Hr.
      * left. exists [], n, namespaces. split; [reflexivity|].
        split; [intros x Hx; inversion Hx|]. split; [right; auto|].
        eexists. intros q. rewrite logged_scopeLoop_cons, Hsc, Hr. reflexivity.
      * destruct IH as [(pre & ns & post & -> & Hpre & Hq & t & Ht) | (res & t & Hn & Ht)].
        -- left. exists (n :: pre), ns, post. split; [reflexivity|].
           split; [|split; [exact Hq|]].
           { intros x Hx. apply elem_of_cons in Hx as [->|Hx]; [auto | apply Hpre, Hx]. }
           exists (passed pod hostConn n ++ t). intros q.
           change ((n :: pre) ++ ns :: post) with (n :: (pre ++ ns :: post)).
           rewrite logged_scopeLoop_cons, Hsc, Hr, Ht.
           cbn [outcome trace fst snd]. rewrite <- app_assoc. reflexivity.
        -- right. exists res, (passed pod hostConn n ++ t). split.
           { apply Forall_app. split; [repeat constructor | exact Hn]. }
           intros q. rewrite logged_scopeLoop_cons, Hsc, Hr, Ht. reflexivity.
      * right. exists (reconcileError err), (queries hostConn n).
        split; [repeat constructor|].
        intros q. rewrite logged_scopeLoop_cons, Hsc, Hr. reflexivity.
    + left. exists [], n, namespaces. split; [reflexivity|].
      split; [intros x Hx; inversion Hx|]. split; [left; exact Hsc|].
      eexists. intros q. rewrite logged_scopeLoop_cons, Hsc. reflexivity.
    + right. exists (reconcileError err), [CallIsNamespaceSCEnabled hostConn n].
      split; [repeat constructor|].
      intros q. rewrite logged_scopeLoop_cons, Hsc. reflexivity.
Qed.

Lemma selects_unique pod hostConn namespaces ns ns' :
  selects w pod hostConn namespaces ns →
  selects w pod hostConn namespaces ns' →
  ns = ns'.
Proof.
  intros [t Ht] [t' Ht'].
  pose proof (Ht (marker hostConn)) as H. rewrite (Ht' (marker hostConn)) in H.
  cbn [marker outcome trace fst snd] in H. injection H as H.
  apply app_inj_tail in H as [_ H]. congruence.
Qed.

Lemma selects_not_none pod hostConn namespaces ns res :
  selects w pod hostConn namespaces ns →
  selectsNone w pod hostConn namespaces res → False.
Proof.
  intros [t Ht] (t' & Hn & Ht').
  pose proof (Ht (marker hostConn)) as H. rewrite (Ht' (marker hostConn)) in H.
  cbn [marker outcome trace fst snd] in H. injection H as _ H. subst t'.
  apply Forall_app in Hn as [_ Hn]. inversion Hn as [|? ? Hq]. discriminate.
Qed.

Lemma selects_qualifies pod hostConn namespaces ns :
  selects w pod hostConn namespaces ns →
  ∃ pre post,
    namespaces = pre ++ ns :: post ∧
    (∀ n, n ∈ pre → isNamespaceSCEnabled w hostConn n = Ok true ∧
                     isNodeInRoster w hostConn n = Ok false) ∧
    (isNamespaceSCEnabled w hostConn ns = Ok false ∨
     isNamespaceSCEnabled w hostConn ns = Ok true ∧
     isNodeInRoster w hostConn ns = Ok true).
Proof.
  intros Hs.
  destruct (logged_scopeLoop_decides pod hostConn namespaces)
    as [(pre & ns' & post & Hl & Hpre & Hq & Hs') | (res & Hnone)].
  - rewrite (selects_unique _ _ _ _ _ Hs Hs'). eauto.
  - destruct (selects_not_none _ _ _ _ _ Hs Hnone).
Qed.

End logged_facts.

(** ** Log lines: where they are and what is left without them *)

Section log_facts.
Variable w : World.

Lemma withoutLog_noLog t : Forall (λ ev, isLog ev = false) t → withoutLog t = t.
Proof.
  unfold withoutLog. induction 1 as [|ev t Hev _ IH]; [reflexivity|].
  cbn [List.filter]. rewrite Hev. cbn [negb]. f_equal. exact IH.
Qed.

Lemma withoutLog_app t1 t2 : withoutLog (t1 ++ t2) = withoutLog t1 ++ withoutLog t2.
Proof. apply List.filter_app. Qed.

Lemma attempts_noLog allHostConns k :
  Forall (λ ev, isLog ev = false) (attempts allHostConns k).
Proof. induction k; cbn; repeat constructor. assumption. Qed.

Lemma waitForClusterStability_noLog allHostConns :
  Forall (λ ev, isLog ev = false) (trace (waitForClusterStability w allHostConns)).
Proof.
  destruct (stabilityLoop_shape w allHostConns (Z.to_nat (maxRetry + 1 - 1)) 1 false)
    as (k & _ & Ht & _).
  unfold waitForClusterStability. rewrite trace_bind.
  destruct (outcome _) as [[res|b]|]; rewrite Ht.
  - cbn. rewrite app_nil_r. apply attempts_noLog.
  - destruct b; cbn; rewrite app_nil_r; apply attempts_noLog.
  - apply attempts_noLog.
Qed.

(** The quiesce flow, modelled without its log lines, has none. *)
Lemma quiesce_flow_noLog pod ignorablePods ns :
  Forall (λ ev, isLog ev = false)
         (trace (waitForNodeSafeStopReadyAndQuiesce w pod ignorablePods ns)).
Proof.
  unfold waitForNodeSafeStopReadyAndQuiesce.
  rewrite bind_call. cbn [trace snd]. constructor; [reflexivity|].
  destruct (waitForAllSTSToBeReady w); [constructor|].
  fold_trace. rewrite trace_bind, newAllHostConnWithOption_trace.
  destruct (outcome (newAllHostConnWithOption w ignorablePods)) as [[conns|err]|];
    [| repeat constructor..].
  constructor; [reflexivity|]. cbn [app].
  rewrite trace_bind.
  pose proof (waitForClusterStability_noLog conns) as Hst.
  destruct (outcome (waitForClusterStability w conns)) as [res|]; [|exact Hst].
  apply Forall_app. split; [exact Hst|].
  destruct (negb (isSuccess res)); [constructor|].
  destruct (newHostConn_cases w pod) as [-> | [h ->]]; [constructor|].
  rewrite bind_Returns_nil, bind_call. cbn [trace snd].
  constructor; [reflexivity|].
  destruct (InfoQuiesce w conns h ns); constructor.
Qed.

(** Without its log lines the logged loop is the loop. *)
Lemma logged_scopeLoop_erase pod ignorablePods hostConn namespaces :
  outcome (Logged.scopeLoop w (waitForNodeSafeStopReadyAndQuiesce w pod ignorablePods)
             pod hostConn namespaces)
    = outcome (scopeLoop w pod ignorablePods hostConn namespaces) ∧
  withoutLog (trace (Logged.scopeLoop w
                       (waitForNodeSafeStopReadyAndQuiesce w pod ignorablePods)
                       pod hostConn namespaces))
    = trace (scopeLoop w pod ignorablePods hostConn namespaces).
Proof.
  induction namespaces as [|ns namespaces [IHo IHt]]; [split; reflexivity|].
  rewrite logged_scopeLoop_cons, scopeLoop_cons.
  pose proof (withoutLog_noLog _ (quiesce_flow_noLog pod ignorablePods ns)) as Hq.
  unfold outcome, trace in *.
  destruct (isNamespaceSCEnabled w hostConn ns) as [[|]|err];
    [destruct (isNodeInRoster w hostConn ns) as [[|]|err]| |];
    cbn [fst snd]; rewrite ?withoutLog_app, ?Hq, ?IHt, ?IHo; split; reflexivity.
Qed.

Lemma logged_waitForNodeSafeStopReady_scopeLoop pod ignorablePods hostConn :
  newHostConn w pod = (Returns (Ok hostConn), []) →
  Logged.waitForNodeSafeStopReady w pod ignorablePods =
  match getNamespaces w hostConn with
  | Err err =>
    (Returns (reconcileError err),
     [LogInfo "Do quiesce for node" [("node", LogString (Name pod))];
      CallGetNamespaces hostConn])
  | Ok namespaces =>
    (outcome (Logged.scopeLoop w (waitForNodeSafeStopReadyAndQuiesce w pod ignorablePods)
                pod hostConn namespaces),
     [LogInfo "Do quiesce for node" [("node", LogString (Name pod))];
      CallGetNamespaces hostConn;
      LogInfo "Namespace list" [("namespaces", LogStrings namespaces)]]
       ++ trace (Logged.scopeLoop w
                   (waitForNodeSafeStopReadyAndQuiesce w pod ignorablePods)
                   pod hostConn namespaces))
  end.
Proof.
  intros Hconn. unfold Logged.waitForNodeSafeStopReady, Logged.Info.
  rewrite bind_call, Hconn, bind_Returns_nil, bind_call.
  destruct (getNamespaces w hostConn); [|reflexivity].
  rewrite bind_call. reflexivity.
Qed.

Lemma logged_waitForNodeSafeStopReady_erase pod ignorablePods :
  outcome (Logged.waitForNodeSafeStopReady w pod ignorablePods)
    = outcome (waitForNodeSafeStopReady w pod ignorablePods) ∧
  withoutLog (trace (Logged.waitForNodeSafeStopReady w pod ignorablePods))
    = trace (waitForNodeSafeStopReady w pod ignorablePods).
Proof.
  destruct (newHostConn_cases w pod) as [Hp | [h Hh]].
  - unfold Logged.waitForNodeSafeStopReady, Logged.Info, waitForNodeSafeStopReady.
    rewrite bind_call, Hp. split; reflexivity.
  - rewrite (logged_waitForNodeSafeStopReady_scopeLoop _ _ _ Hh),
      (waitForNodeSafeStopReady_scopeLoop w _ _ _ Hh).
    destruct (getNamespaces w h) as [nss|err]; [|split; reflexivity].
    destruct (logged_scopeLoop_erase pod ignorablePods h nss) as [Ho Ht].
    unfold outcome, trace in *. cbn [fst snd]. split; [exact Ho|].
    rewrite withoutLog_app, Ht. reflexivity.
Qed.

Lemma noLog_scopeLogSafe hostConn t :
  Forall (λ ev, isLog ev = false) t → Forall (scopeLogSafe w hostConn) t.
Proof.
  intros H. eapply Forall_impl; [exact H|].
  intros [] Hev; cbn in *; try exact I. discriminate.
Qed.

(** Every log line of the loop that announces a scope names a namespace
    that is not strong-consistency or has the node in its roster. *)
Lemma logged_scopeLoop_logSafe quiesce pod hostConn namespaces :
  (∀ ns, Forall (λ ev, isLog ev = false) (trace (quiesce ns))) →
  Forall (scopeLogSafe w hostConn)
         (trace (Logged.scopeLoop w quiesce pod hostConn namespaces)).
Proof.
  intros Hq. induction namespaces as [|ns namespaces IH].
  - rewrite logged_scopeLoop_nil. cbn [trace snd]. constructor; [|constructor].
    cbn. intros [H|H]; discriminate.
  - rewrite logged_scopeLoop_cons.
    pose proof (noLog_scopeLogSafe hostConn _ (Hq ns)) as Hsafe.
    destruct (isNamespaceSCEnabled w hostConn ns) as [[|]|err] eqn:Hsc;
      [destruct (isNodeInRoster w hostConn ns) as [[|]|err] eqn:Hr| |];
      cbn [trace snd passed queries app];
      repeat (constructor; [exact I|]); try (constructor; fail).
    + constructor; [|exact Hsafe]. cbn. intros _. exists ns. split; [reflexivity|].
      intros _. exact Hr.
    + constructor; [|exact IH]. cbn. intros [H|H]; discriminate.
    + constructor; [|exact Hsafe]. cbn. intros _. exists ns. split; [reflexivity|].
      rewrite Hsc. discriminate.
Qed.

End log_facts.

(** ** The namespace the loop selects: claims *)

Section selection_facts.
Variable w : World.

(** The run of the loop up to the namespace it selects, when that one is
    not strong-consistency, and when it is and has the node in its
    roster. *)
Lemma logged_scopeLoop_available quiesce pod hostConn pre ns post :
  (∀ n, n ∈ pre → isNamespaceSCEnabled w hostConn n = Ok true ∧
                   isNodeInRoster w hostConn n = Ok false) →
  isNamespaceSCEnabled w hostConn ns = Ok false →
  Logged.scopeLoop w quiesce pod hostConn (pre ++ ns :: post) =
    (outcome (quiesce ns),
     (flat_map (passed pod hostConn) pre
        ++ [CallIsNamespaceSCEnabled hostConn ns;
            LogInfo "Namespace is not sc enabled, do quiesce using this namespace"
                    [("namespace", LogString ns)]])
       ++ trace (quiesce ns)).
Proof.
  intros Hpre Hsc.
  rewrite (logged_scopeLoop_pass w quiesce pod hostConn pre (ns :: post) Hpre).
  rewrite logged_scopeLoop_cons, Hsc. cbn [outcome trace fst snd].
  rewrite <- app_assoc. reflexivity.
Qed.

Lemma logged_scopeLoop_inRoster quiesce pod hostConn pre ns post :
  (∀ n, n ∈ pre → isNamespaceSCEnabled w hostConn n = Ok true ∧
                   isNodeInRoster w hostConn n = Ok false) →
  isNamespaceSCEnabled w hostConn ns = Ok true →
  isNodeInRoster w hostConn ns = Ok true →
  Logged.scopeLoop w quiesce pod hostConn (pre ++ ns :: post) =
    (outcome (quiesce ns),
     (flat_map (passed pod hostConn) pre
        ++ [CallIsNamespaceSCEnabled hostConn ns; CallIsNodeInRoster hostConn ns;
            LogInfo "Namespace is sc enabled and in roster, do quiesce using this namespce"
                    [("namespace", LogString ns)]])
       ++ trace (quiesce ns)).
Proof.
  intros Hpre Hsc Hr.
  rewrite (logged_scopeLoop_pass w quiesce pod hostConn pre (ns :: post) Hpre).
  rewrite logged_scopeLoop_cons, Hsc, Hr. cbn [outcome trace fst snd].
  rewrite <- app_assoc. reflexivity.
Qed.

Lemma logged_scopeLoop_none quiesce pod hostConn namespaces :
  (∀ n, n ∈ namespaces → isNamespaceSCEnabled w hostConn n = Ok true ∧
                          isNodeInRoster w hostConn n = Ok false) →
  Logged.scopeLoop w quiesce pod hostConn namespaces =
    (Returns reconcileSuccess,
     flat_map (passed pod hostConn) namespaces
       ++ [LogInfo "Quiesce not needed in node. Node is blacklisted or does not have any non-sc namespace"
                   [("node", LogString (Name pod))]]).
Proof.
  intros H. rewrite <- (app_nil_r namespaces) at 1.
  rewrite (logged_scopeLoop_pass w quiesce pod hostConn namespaces [] H).
  reflexivity.
Qed.

Lemma first_qualifying_selected pod hostConn pre ns post :
  (∀ n, n ∈ pre → isNamespaceSCEnabled w hostConn n = Ok true ∧
                   isNodeInRoster w hostConn n = Ok false) →
  isNamespaceSCEnabled w hostConn ns = Ok false ∨
  isNamespaceSCEnabled w hostConn ns = Ok true ∧ isNodeInRoster w hostConn ns = Ok true →
  selects w pod hostConn (pre ++ ns :: post) ns.
Proof.
  intros Hpre [Hsc | [Hsc Hr]]; eexists; intros quiesce.
  - apply logged_scopeLoop_available; assumption.
  - apply logged_scopeLoop_inRoster; assumption.
Qed.

Lemma Forall_withoutLog (P : Event → Prop) t :
  (∀ ev, isLog ev = true → P ev) → Forall P (withoutLog t) → Forall P t.
Proof.
  intros Hlog. unfold withoutLog. induction t as [|ev t IH]; [constructor|].
  cbn [List.filter]. destruct (isLog ev) eqn:Hev; cbn [negb]; intros H.
  - constructor; [apply Hlog, Hev | apply IH, H].
  - inversion H; subst. constructor; [assumption | apply IH; assumption].
Qed.

Lemma waitForNodeSafeStopReady_rosterSafe pod ignorablePods hostConn :
  newHostConn w pod = (Returns (Ok hostConn), []) →
  Forall (rosterSafe w hostConn) (trace (waitForNodeSafeStopReady w pod ignorablePods)).
Proof.
  intros Hconn. rewrite (waitForNodeSafeStopReady_scopeLoop w _ _ _ Hconn).
  destruct (getNamespaces w hostConn) as [nss|err]; cbn [trace snd].
  - constructor; [exact I | apply scopeLoop_rosterSafe].
  - repeat constructor.
Qed.

Lemma logged_waitForNodeSafeStopReady_logSafe pod ignorablePods hostConn :
  newHostConn w pod = (Returns (Ok hostConn), []) →
  Forall (scopeLogSafe w hostConn)
         (trace (Logged.waitForNodeSafeStopReady w pod ignorablePods)).
Proof.
  intros Hconn. rewrite (logged_waitForNodeSafeStopReady_scopeLoop w _ _ _ Hconn).
  destruct (getNamespaces w hostConn) as [nss|err]; cbn [trace snd app].
  - constructor; [cbn; intros [H|H]; discriminate|].
    constructor; [exact I|].
    constructor; [cbn; intros [H|H]; discriminate|].
    apply logged_scopeLoop_logSafe. intros ns. apply quiesce_flow_noLog.
  - constructor; [cbn; intros [H|H]; discriminate|]. repeat constructor.
Qed.

End selection_facts.

(** C1.  Whatever the namespaces and the target pod, the namespace that
    the loop of [waitForNodeSafeStopReady] selects, the one it enters the
    quiesce flow with, is not in strong-consistency mode or has the node
    in its roster: if it is in strong-consistency mode, the node is in its
    roster.  The loop selects one namespace at most.  In a run of the
    function every log line that announces the scope names such a
    namespace, and there is no quiesce call for a strong-consistency
    namespace whose roster lacks the node. *)
Theorem roster_safety (w : World) (pod : Pod) (ignorablePods : list Pod)
    (hostConn : HostConn) (namespaces : list string) :
  (∀ ns, selects w pod hostConn namespaces ns →
         isNamespaceSCEnabled w hostConn ns = Ok true →
         isNodeInRoster w hostConn ns = Ok true) ∧
  (∀ ns ns', selects w pod hostConn namespaces ns →
             selects w pod hostConn namespaces ns' → ns = ns') ∧
  ((∃ ns, selects w pod hostConn namespaces ns) ∨
   (∃ res, selectsNone w pod hostConn namespaces res)) ∧
  (newHostConn w pod = (Returns (Ok hostConn), []) →
   Forall (scopeLogSafe w hostConn)
          (trace (Logged.waitForNodeSafeStopReady w pod ignorablePods)) ∧
   Forall (rosterSafe w hostConn)
          (trace (Logged.waitForNodeSafeStopReady w pod ignorablePods))) ∧
  outcome (Logged.waitForNodeSafeStopReady w pod ignorablePods)
    = outcome (waitForNodeSafeStopReady w pod ignorablePods) ∧
  withoutLog (trace (Logged.waitForNodeSafeStopReady w pod ignorablePods))
    = trace (waitForNodeSafeStopReady w pod ignorablePods).
Proof.
  split; [|split; [|split; [|split]]].
  - intros ns Hs Hsc.
    destruct (selects_qualifies w _ _ _ _ Hs) as (pre & post & _ & _ & [H | [_ H]]);
      congruence.
  - apply selects_unique.
  - destruct (logged_scopeLoop_decides w pod hostConn namespaces)
      as [(pre & ns & post & _ & _ & _ & Hs) | Hnone]; [left; eauto | right; exact Hnone].
  - intros Hconn. split; [apply logged_waitForNodeSafeStopReady_logSafe, Hconn|].
    apply Forall_withoutLog; [intros []; cbn; try discriminate; trivial|].
    rewrite (proj2 (logged_waitForNodeSafeStopReady_erase w pod ignorablePods)).
    apply waitForNodeSafeStopReady_rosterSafe, Hconn.
  - apply logged_waitForNodeSafeStopReady_erase.
Qed.

(** The theorem on the namespaces foo, bar, test: bar is selected, it is
    strong-consistency and the node is in its roster. *)
Lemma roster_safety_witness :
  selects (clusterWorld ["foo"; "bar"; "test"] (stableFrom 1)) podA connOfA
          ["foo"; "bar"; "test"] "bar" ∧
  isNamespaceSCEnabled (clusterWorld ["foo"; "bar"; "test"] (stableFrom 1)) connOfA "bar"
    = Ok true ∧
  isNodeInRoster (clusterWorld ["foo"; "bar"; "test"] (stableFrom 1)) connOfA "bar"
    = Ok true ∧
  newHostConn (clusterWorld ["foo"; "bar"; "test"] (stableFrom 1)) podA
    = (Returns (Ok connOfA), []) ∧
  Forall (scopeLogSafe (clusterWorld ["foo"; "bar"; "test"] (stableFrom 1)) connOfA)
         (trace (Logged.waitForNodeSafeStopReady
                   (clusterWorld ["foo"; "bar"; "test"] (stableFrom 1)) podA [])).
Proof.
  assert (selects (clusterWorld ["foo"; "bar"; "test"] (stableFrom 1)) podA connOfA
                  ["foo"; "bar"; "test"] "bar") as Hs.
  { apply (first_qualifying_selected _ podA connOfA ["foo"] "bar" ["test"]).
    - intros n Hn. apply list_elem_of_singleton in Hn as ->. split; reflexivity.
    - right. split; reflexivity. }
  pose proof (roster_safety (clusterWorld ["foo"; "bar"; "test"] (stableFrom 1))
                podA [] connOfA ["foo"; "bar"; "test"]) as (Hsafe & _ & _ & Hrun & _).
  split; [exact Hs|]. split; [reflexivity|].
  split; [exact (Hsafe "bar" Hs eq_refl)|].
  split; [reflexivity | exact (proj1 (Hrun eq_refl))].
Defined.

(** C5.  The loop of [waitForNodeSafeStopReady] takes the namespaces in
    the order the listing call returned them.  It passes every
    strong-consistency namespace without the node in its roster and
    enters the quiesce flow with the first namespace that is not
    strong-consistency (whose roster it does not ask for) or that has the
    node in its roster, with no query about the namespaces behind it; so it
    selects exactly that namespace.  When every namespace is passed it
    enters no flow and returns success. *)
Theorem drain_scope_first_match (w : World) (pod : Pod) (ignorablePods : list Pod)
    (hostConn : HostConn) (namespaces : list string) :
  (∀ quiesce pre ns post,
     namespaces = pre ++ ns :: post →
     (∀ n, n ∈ pre → isNamespaceSCEnabled w hostConn n = Ok true ∧
                      isNodeInRoster w hostConn n = Ok false) →
     (isNamespaceSCEnabled w hostConn ns = Ok false →
      Logged.scopeLoop w quiesce pod hostConn namespaces =
        (outcome (quiesce ns),
         (flat_map (passed pod hostConn) pre
            ++ [CallIsNamespaceSCEnabled hostConn ns;
                LogInfo "Namespace is not sc enabled, do quiesce using this namespace"
                        [("namespace", LogString ns)]])
           ++ trace (quiesce ns))) ∧
     (isNamespaceSCEnabled w hostConn ns = Ok true →
      isNodeInRoster w hostConn ns = Ok true →
      Logged.scopeLoop w quiesce pod hostConn namespaces =
        (outcome (quiesce ns),
         (flat_map (passed pod hostConn) pre
            ++ [CallIsNamespaceSCEnabled hostConn ns; CallIsNodeInRoster hostConn ns;
                LogInfo "Namespace is sc enabled and in roster, do quiesce using this namespce"
                        [("namespace", LogString ns)]])
           ++ trace (quiesce ns)))) ∧
  (∀ quiesce,
     (∀ n, n ∈ namespaces → isNamespaceSCEnabled w hostConn n = Ok true ∧
                             isNodeInRoster w hostConn n = Ok false) →
     Logged.scopeLoop w quiesce pod hostConn namespaces =
       (Returns reconcileSuccess,
        flat_map (passed pod hostConn) namespaces
          ++ [LogInfo "Quiesce not needed in node. Node is blacklisted or does not have any non-sc namespace"
                      [("node", LogString (Name pod))]])) ∧
  (∀ ns, selects w pod hostConn namespaces ns ↔
         ∃ pre post,
           namespaces = pre ++ ns :: post ∧
           (∀ n, n ∈ pre → isNamespaceSCEnabled w hostConn n = Ok true ∧
                            isNodeInRoster w hostConn n = Ok false) ∧
           (isNamespaceSCEnabled w hostConn ns = Ok false ∨
            isNamespaceSCEnabled w hostConn ns = Ok true ∧
            isNodeInRoster w hostConn ns = Ok true)) ∧
  (newHostConn w pod = (Returns (Ok hostConn), []) →
   getNamespaces w hostConn = Ok namespaces →
   Logged.waitForNodeSafeStopReady w pod ignorablePods =
     (outcome (Logged.scopeLoop w (waitForNodeSafeStopReadyAndQuiesce w pod ignorablePods)
                 pod hostConn namespaces),
      [LogInfo "Do quiesce for node" [("node", LogString (Name pod))];
       CallGetNamespaces hostConn;
       LogInfo "Namespace list" [("namespaces", LogStrings namespaces)]]
        ++ trace (Logged.scopeLoop w
                    (waitForNodeSafeStopReadyAndQuiesce w pod ignorablePods)
                    pod hostConn namespaces))) ∧
  outcome (Logged.waitForNodeSafeStopReady w pod ignorablePods)
    = outcome (waitForNodeSafeStopReady w pod ignorablePods) ∧
  withoutLog (trace (Logged.waitForNodeSafeStopReady w pod ignorablePods))
    = trace (waitForNodeSafeStopReady w pod ignorablePods).
Proof.
  split; [|split; [|split; [|split]]].
  - intros quiesce pre ns post -> Hpre. split.
    + apply logged_scopeLoop_available, Hpre.
    + apply logged_scopeLoop_inRoster, Hpre.
  - intros quiesce. apply logged_scopeLoop_none.
  - intros ns. split.
    + apply selects_qualifies.
    + intros (pre & post & -> & Hpre & Hq). apply first_qualifying_selected; assumption.
  - intros Hconn Hns.
    rewrite (logged_waitForNodeSafeStopReady_scopeLoop w _ _ _ Hconn), Hns. reflexivity.
  - apply logged_waitForNodeSafeStopReady_erase.
Qed.

(** The theorem on the namespaces foo, test, bar, where the
    available-mode namespace test is met first; on foo, bar, test, where
    bar with the node in its roster is; on foo alone, where there is no
    scope; and on the whole function for the first list. *)
Lemma drain_scope_first_match_witness :
  Logged.scopeLoop (stableWorld 1) (marker connOfA) podA connOfA ["foo"; "test"; "bar"] =
    (Returns reconcileSuccess,
     [CallIsNamespaceSCEnabled connOfA "foo"; CallIsNodeInRoster connOfA "foo";
      LogInfo "Node is not in roster for namespace. Skip quiesce"
              [("node", LogString "aerocluster-0-0"); ("namespace", LogString "foo")];
      CallIsNamespaceSCEnabled connOfA "test";
      LogInfo "Namespace is not sc enabled, do quiesce using this namespace"
              [("namespace", LogString "test")];
      CallInfoQuiesce [] connOfA "test"]) ∧
  Logged.scopeLoop (stableWorld 1) (marker connOfA) podA connOfA ["foo"; "bar"; "test"] =
    (Returns reconcileSuccess,
     [CallIsNamespaceSCEnabled connOfA "foo"; CallIsNodeInRoster connOfA "foo";
      LogInfo "Node is not in roster for namespace. Skip quiesce"
              [("node", LogString "aerocluster-0-0"); ("namespace", LogString "foo")];
      CallIsNamespaceSCEnabled connOfA "bar"; CallIsNodeInRoster connOfA "bar";
      LogInfo "Namespace is sc enabled and in roster, do quiesce using this namespce"
              [("namespace", LogString "bar")];
      CallInfoQuiesce [] connOfA "bar"]) ∧
  Logged.scopeLoop (stableWorld 1) (marker connOfA) podA connOfA ["foo"] =
    (Returns reconcileSuccess,
     [CallIsNamespaceSCEnabled connOfA "foo"; CallIsNodeInRoster connOfA "foo";
      LogInfo "Node is not in roster for namespace. Skip quiesce"
              [("node", LogString "aerocluster-0-0"); ("namespace", LogString "foo")];
      LogInfo "Quiesce not needed in node. Node is blacklisted or does not have any non-sc namespace"
              [("node", LogString "aerocluster-0-0")]]) ∧
  selects (stableWorld 1) podA connOfA ["foo"; "test"; "bar"] "test" ∧
  Logged.waitForNodeSafeStopReady
    (clusterWorld ["foo"; "test"; "bar"] (stableFrom 1)) podA [] =
    (outcome (waitForNodeSafeStopReadyAndQuiesce
                (clusterWorld ["foo"; "test"; "bar"] (stableFrom 1)) podA [] "test"),
     [LogInfo "Do quiesce for node" [("node", LogString "aerocluster-0-0")];
      CallGetNamespaces connOfA;
      LogInfo "Namespace list" [("namespaces", LogStrings ["foo"; "test"; "bar"])];
      CallIsNamespaceSCEnabled connOfA "foo"; CallIsNodeInRoster connOfA "foo";
      LogInfo "Node is not in roster for namespace. Skip quiesce"
              [("node", LogString "aerocluster-0-0"); ("namespace", LogString "foo")];
      CallIsNamespaceSCEnabled connOfA "test";
      LogInfo "Namespace is not sc enabled, do quiesce using this namespace"
              [("namespace", LogString "test")]]
       ++ trace (waitForNodeSafeStopReadyAndQuiesce
                   (clusterWorld ["foo"; "test"; "bar"] (stableFrom 1)) podA [] "test")).
Proof.
  assert (∀ w' : World,
            isNamespaceSCEnabled w' = (λ _, sampleSC) →
            isNodeInRoster w' = (λ _, sampleRoster) →
            ∀ n, n ∈ ["foo"] →
              isNamespaceSCEnabled w' connOfA n = Ok true ∧
              isNodeInRoster w' connOfA n = Ok false) as Hfoo.
  { intros w' -> -> n Hn. apply list_elem_of_singleton in Hn as ->. split; reflexivity. }
  pose proof (drain_scope_first_match (stableWorld 1) podA [] connOfA
                ["foo"; "test"; "bar"]) as (Hsel1 & _ & Hiff1 & _).
  pose proof (drain_scope_first_match (stableWorld 1) podA [] connOfA
                ["foo"; "bar"; "test"]) as (Hsel2 & _).
  pose proof (drain_scope_first_match (stableWorld 1) podA [] connOfA ["foo"])
    as (_ & Hnone & _).
  pose proof (drain_scope_first_match (clusterWorld ["foo"; "test"; "bar"] (stableFrom 1))
                podA [] connOfA ["foo"; "test"; "bar"]) as (Hsel4 & _ & _ & Hrun & _).
  split; [|split; [|split; [|split]]].
  - exact (proj1 (Hsel1 (marker connOfA) ["foo"] "test" ["bar"] eq_refl
                        (Hfoo (stableWorld 1) eq_refl eq_refl)) eq_refl).
  - exact (proj2 (Hsel2 (marker connOfA) ["foo"] "bar" ["test"] eq_refl
                        (Hfoo (stableWorld 1) eq_refl eq_refl)) eq_refl eq_refl).
  - exact (Hnone (marker connOfA) (Hfoo (stableWorld 1) eq_refl eq_refl)).
  - apply Hiff1. exists ["foo"], ["bar"]. split; [reflexivity|].
    split; [exact (Hfoo (stableWorld 1) eq_refl eq_refl) | left; reflexivity].
  - rewrite (Hrun eq_refl eq_refl).
    rewrite (proj1 (Hsel4 _ ["foo"] "test" ["bar"] eq_refl
                          (Hfoo (clusterWorld ["foo"; "test"; "bar"] (stableFrom 1))
                                eq_refl eq_refl))
                   eq_refl).
    reflexivity.
Defined.
